(** * Dolt diff command: summary formatting, row validity and equality,
      schema dumbing-down and the control flow of [diffRoots]/[diffRows].

    Shallow embedding of
      - go/cmd/dolt/commands/diff.go
      - go/libraries/doltcore/row/row.go
    Go's [uint64] is modelled as [Z] with the wrap-around written out,
    [float64] as the IEEE-754 binary64 specification of the Standard Library
    ([SpecFloat], precision 53, emax 1024), Go maps as [gmap], slices as
    lists, nil-able interfaces and pointers as [option]. *)

From Stdlib Require Import ZArith Lia List.
From Stdlib Require Import Floats.SpecFloat.
From Stdlib Require Import DecimalString DecimalN.
From stdpp Require Import base option list gmap strings.

Local Open Scope Z_scope.

(** ** Machine integers *)

Module U64.

Definition modulus : Z := 2 ^ 64.

(** Reduction of a mathematical integer to its [uint64] representative. *)
Definition wrap (z : Z) : Z := z mod modulus.

Definition add (a b : Z) : Z := wrap (a + b).
Definition sub (a b : Z) : Z := wrap (a - b).
Definition mul (a b : Z) : Z := wrap (a * b).

(** A [Z] that is the value of some [uint64]. *)
Definition inRange (z : Z) : Prop := 0 <= z < modulus.

(** Go's conversion [int64(n)] of an unsigned 64-bit value. *)
Definition toInt64 (n : Z) : Z :=
  if Z.ltb (wrap n) (2 ^ 63) then wrap n else wrap n - modulus.

End U64.

(** ** IEEE-754 binary64, as Go's [float64] *)

Module F64.

Definition prec : Z := 53.
Definition emax : Z := 1024.

Definition float64 : Type := spec_float.

(** [float64(n)] for an integer [n]: rounding to nearest, ties to even. *)
Definition ofInt (n : Z) : float64 := binary_normalize prec emax n 0 false.

Definition div (x y : float64) : float64 := SFdiv prec emax x y.
Definition mul (x y : float64) : float64 := SFmul prec emax x y.

Definition zero : float64 := S754_zero false.
Definition posInf : float64 := S754_infinity false.
Definition NaN : float64 := S754_nan.

End F64.

(** ** Package [diff]: the streaming summary accumulator *)

Module diff.

(** [diff.DiffSummaryProgress]; every field is a [uint64]. *)
Record DiffSummaryProgress : Type := mkProgress {
  Adds : Z;
  Removes : Z;
  Changes : Z;
  CellChanges : Z;
  NewSize : Z;
  OldSize : Z
}.

(** The zero value [diff.DiffSummaryProgress{}]. *)
Definition zeroProgress : DiffSummaryProgress := mkProgress 0 0 0 0 0 0.

Definition wfProgress (p : DiffSummaryProgress) : Prop :=
  U64.inRange (Adds p) /\ U64.inRange (Removes p) /\ U64.inRange (Changes p) /\
  U64.inRange (CellChanges p) /\ U64.inRange (NewSize p) /\ U64.inRange (OldSize p).

(** The values of the [DiffTypeProp] row property. *)
Inductive DiffChType : Type :=
  | DiffAdded | DiffRemoved | DiffModifiedOld | DiffModifiedNew.

End diff.

(** ** [diffSummary] and [formatSummary] (commands/diff.go) *)

Module summary.
Import diff.

(** What [humanize.Comma(int64(n))] followed by the noun renders: the
    integer handed to the formatter and the chosen noun. *)
Definition counted : Type := (Z * string)%type.

(** Lines written to the terminal, in the order they are written. *)
Inductive cliOut : Type :=
  | Status (acc : DiffSummaryProgress)        (* cli.DeleteAndPrint(pos, statusStr) *)
  | ClearStatus                               (* cli.DeleteAndPrint with the empty string *)
  | StatLine (txt : counted) (pct : F64.float64) (* "%s (%.2f%%)\n" *)
  | SizesLine (old new : counted)             (* "(%s vs %s)\n\n" *)
  | NoDataChanges.

Definition pluralize (singular plural : string) (n : Z) : counted :=
  let noun := if negb (Z.eqb n 1) then plural else singular in
  (U64.toInt64 n, noun).

(** [rowsUnmodified := uint64(acc.OldSize - acc.Changes - acc.Removes)] *)
Definition rowsUnmodified (acc : DiffSummaryProgress) : Z :=
  U64.wrap (U64.sub (U64.sub (OldSize acc) (Changes acc)) (Removes acc)).

(** [float64(100*acc.CellChanges) / (float64(acc.OldSize) * float64(colLen))] *)
Definition percentCellsChanged (acc : DiffSummaryProgress) (colLen : Z) : F64.float64 :=
  F64.div (F64.ofInt (U64.mul 100 (CellChanges acc)))
          (F64.mul (F64.ofInt (OldSize acc)) (F64.ofInt colLen)).

Definition safePercent (num dom : Z) : F64.float64 :=
  (* returns +Inf for x/0 where x > 0 *)
  if Z.eqb num 0 then F64.ofInt 0
  else F64.div (F64.ofInt (U64.mul 100 num)) (F64.ofInt dom).

Definition formatSummary (acc : DiffSummaryProgress) (colLen : Z) : list cliOut :=
  let rowsUnmod := rowsUnmodified acc in
  let unmodified := pluralize "Row Unmodified" "Rows Unmodified" rowsUnmod in
  let insertions := pluralize "Row Added" "Rows Added" (Adds acc) in
  let deletions := pluralize "Row Deleted" "Rows Deleted" (Removes acc) in
  let changes := pluralize "Row Modified" "Rows Modified" (Changes acc) in
  let cellChanges := pluralize "Cell Modified" "Cells Modified" (CellChanges acc) in
  let oldValues := pluralize "Entry" "Entries" (OldSize acc) in
  let newValues := pluralize "Entry" "Entries" (NewSize acc) in
  let pctCells := percentCellsChanged acc colLen in
  [ StatLine unmodified (safePercent rowsUnmod (OldSize acc));
    StatLine insertions (safePercent (Adds acc) (OldSize acc));
    StatLine deletions (safePercent (Removes acc) (OldSize acc));
    StatLine changes (safePercent (Changes acc) (OldSize acc));
    StatLine cellChanges pctCells;
    SizesLine oldValues newValues ].

(** The percentages a piece of output shows, in order. *)
Definition percentages (out : list cliOut) : list F64.float64 :=
  omap (fun o => match o with StatLine _ p => Some p | _ => None end) out.

(** The body of the accumulation: six [+=] on [uint64] fields. *)
Definition merge (acc p : DiffSummaryProgress) : DiffSummaryProgress :=
  {| Adds := U64.add (Adds acc) (Adds p);
     Removes := U64.add (Removes acc) (Removes p);
     Changes := U64.add (Changes acc) (Changes p);
     CellChanges := U64.add (CellChanges acc) (CellChanges p);
     NewSize := U64.add (NewSize acc) (NewSize p);
     OldSize := U64.add (OldSize acc) (OldSize p) |}.

(** State of the [for p := range ch] loop. *)
Record loopState : Type := mkLoop {
  acc : DiffSummaryProgress;
  count : Z;
  printed : list cliOut
}.

Definition initLoop : loopState := mkLoop zeroProgress 0 [].

(** One delivery on the channel: the report received, and what
    [ae.IsSet()] answers at the head of that iteration. *)
Definition delivery : Type := (DiffSummaryProgress * bool)%type.

Fixpoint rangeLoop (ch : list delivery) (st : loopState) : loopState :=
  match ch with
  | [] => st
  | (p, errIsSet) :: rest =>
      if errIsSet then st (* break *)
      else
        let acc' := merge (acc st) p in
        let printed' :=
          if Z.eqb (Z.rem (count st) 10000) 0
          then printed st ++ [Status acc'] else printed st in
        rangeLoop rest (mkLoop acc' (count st + 1) printed')
  end.

(** [diffSummary]: [ch] is what the producer goroutine delivers before it
    closes the channel, [err] what [ae.Get()] holds after the loop. *)
Definition diffSummary (ch : list delivery) (err : option string) (colLen : Z)
  : option string * list cliOut :=
  let st := rangeLoop ch initLoop in
  let out := printed st ++ [ClearStatus] in
  match err with
  | Some e => (Some e, out)
  | None =>
      if Z.ltb 0 (NewSize (acc st)) || Z.ltb 0 (OldSize (acc st))
      then (None, out ++ formatSummary (acc st) colLen)
      else (None, out ++ [NoDataChanges])
  end.

(** The loop left through the closing of the channel, not through [break]. *)
Definition drained (ch : list delivery) : Prop :=
  Forall (fun d => snd d = false) ch.

(** Mathematical sum of one field over the delivered reports. *)
Definition total (f : DiffSummaryProgress -> Z) (ch : list delivery) : Z :=
  foldr (fun d s => f (fst d) + s) 0 ch.

(** The six counters of the accumulator. *)
Definition fields : list (DiffSummaryProgress -> Z) :=
  [Adds; Removes; Changes; CellChanges; NewSize; OldSize].

(** The deliveries the loop merges: those received before the first one
    at which [ae.IsSet()] answers true. *)
Fixpoint merged (ch : list delivery) : list delivery :=
  match ch with
  | [] => []
  | (p, errIsSet) :: rest => if errIsSet then [] else (p, errIsSet) :: merged rest
  end.

(** The number of progress lines in a piece of output. *)
Definition statusLines (out : list cliOut) : nat :=
  length (List.filter (fun o => match o with Status _ => true | _ => false end) out).

End summary.

(** ** Results of fallible Go code *)

(** What a Go function of a collaborating package hands back next to its
    result: a nil error with the result, or a non-nil error. *)
Inductive fallible (A : Type) : Type :=
  | Okay (a : A)
  | Fails (e : string).

Arguments Okay {A} a.
Arguments Fails {A} e.

(** The value a [panic] carries. *)
Inductive panicValue : Type :=
  | PanicString (msg : string)   (* panic("...") *)
  | PanicError (e : string)      (* panic(err) *)
  | NilDereference.              (* method call on a nil interface or pointer *)

(** How a function of the command ends. *)
Inductive outcome (A : Type) : Type :=
  | Ret (a : A)              (* normal return, error nil *)
  | Err (msg : string)       (* non-nil error or VerboseError *)
  | Panic (v : panicValue).

Arguments Ret {A} a.
Arguments Err {A} msg.
Arguments Panic {A} v.

#[global] Instance outcome_ret : MRet outcome := fun A a => Ret a.

#[global] Instance outcome_bind : MBind outcome := fun A B k m =>
  match m with
  | Ret a => k a
  | Err e => Err e
  | Panic v => Panic v
  end.

#[global] Instance outcome_fmap : FMap outcome := fun A B f m =>
  match m with
  | Ret a => Ret (f a)
  | Err e => Err e
  | Panic v => Panic v
  end.

(** A collaborator's result inside the command; [wrap] is what the command
    makes of the error (errhand.BuildDError(...)...Build()). *)
Definition orErr {A : Type} (wrap : string -> string) (r : fallible A) : outcome A :=
  match r with
  | Okay a => Ret a
  | Fails e => Err (wrap e)
  end.

(** Calling a method on a nil-able interface value. *)
Definition deref {A : Type} (o : option A) : outcome A :=
  match o with
  | Some a => Ret a
  | None => Panic NilDereference
  end.

(** No [panic("...")] with a string value ends the computation. *)
Definition stringPanicFree {A : Type} (o : outcome A) : Prop :=
  forall msg, o <> Panic (PanicString msg).

(** ** Package [schema] *)

Module schema.

Section Schema.
(** [V]: the non-nil noms values; [TypeInfo]: the type descriptors. *)
Context {V TypeInfo : Type}.

(** The interface [types.Value]: [None] is Go's nil. *)
Definition Value : Type := option V.

(** The interface [schema.ColConstraint], by the method the row
    package calls. *)
Record ColConstraint : Type := mkConstraint {
  SatisfiesConstraint : Value -> bool
}.

(** Modelled from the spec: the struct [schema.Column] is declared
    outside src/; the fields are those of section 3 of the spec
    (tag, name, type, primary-key membership, ordered constraints). *)
Record Column : Type := mkColumn {
  Name : string;
  Tag : Z;
  TypeDesc : TypeInfo;
  IsPartOfPK : bool;
  Constraints : list ColConstraint
}.

(** Modelled from the spec: [schema.ColCollection] is declared outside
    src/; section 3 makes it an ordered collection of columns, keyed
    and iterable by tag. The list is the iteration order. *)
Definition ColCollection : Type := list Column.

(** Modelled from the spec: the field [ColCollection.Tags] (outside
    src/), the tags of the columns in collection order. *)
Definition Tags (cc : ColCollection) : list Z := map Tag cc.

(** Modelled from the spec: [ColCollection.Size] (outside src/), the
    number of columns. *)
Definition Size (cc : ColCollection) : Z := Z.of_nat (length cc).

(** Section 3: tags are unique within a schema. *)
Definition uniqueTags (cc : ColCollection) : Prop := NoDup (Tags cc).

(** Modelled from the spec: [ColCollection.GetByTag] (outside src/);
    the collection is keyed by tag. *)
Fixpoint GetByTag (cc : ColCollection) (tag : Z) : option Column :=
  match cc with
  | [] => None
  | c :: rest => if Z.eqb (Tag c) tag then Some c else GetByTag rest tag
  end.

(** Modelled from the spec: [ColCollection.Iter] (outside src/) visits
    the columns in collection order until the callback asks to stop.
    [S] is the state of the variables the Go closure captures. This is
    the signature row.go uses: [func(tag, col) (stop bool)]. *)
Fixpoint Iter {S : Type} (cc : ColCollection)
    (cb : Z -> Column -> S -> S * bool) (st : S) : S :=
  match cc with
  | [] => st
  | c :: rest =>
      let '(st', stop) := cb (Tag c) c st in
      if stop then st' else Iter rest cb st'
  end.

(** Modelled from the spec: the same iteration with the signature diff.go
    uses:
    [func(tag, col) (stop bool, err error)]; a non-nil error ends the
    iteration and is returned. *)
Fixpoint IterErr {S : Type} (cc : ColCollection)
    (cb : Z -> Column -> S -> S * bool * option string) (st : S)
  : S * option string :=
  match cc with
  | [] => (st, None)
  | c :: rest =>
      match cb (Tag c) c st with
      | (st', _, Some e) => (st', Some e)
      | (st', true, None) => (st', None)
      | (st', false, None) => IterErr rest cb st'
      end
  end.

(** Modelled from the spec: [schema.NewColCollection] (outside src/)
    builds the ordered collection and fails when the tags are not
    unique. *)
Definition NewColCollection (cols : list Column) : fallible ColCollection :=
  if decide (NoDup (map Tag cols)) then Okay cols
  else Fails "two different columns with the same tag".

(** Modelled from the spec: the interface [schema.Schema] and
    [schema.SchemaFromCols] (outside src/), a schema by its column
    collection. *)
Record Schema : Type := SchemaFromCols { GetAllCols : ColCollection }.

End Schema.

Arguments ColConstraint : clear implicits.
Arguments Column : clear implicits.
Arguments ColCollection : clear implicits.
Arguments Schema : clear implicits.

End schema.

(** ** Package [valutil] *)

Module valutil.

Section NilSafe.
Context {V : Type}.
(** The method [Equals] of the non-nil value on the left. *)
Variable Equals : V -> V -> bool.

(** Modelled from the spec: [valutil.NilSafeEqCheck] is outside src/.
    Section 3: absent equals absent, two present values are equal iff
    their underlying equality holds. *)
Definition NilSafeEqCheck (v1 v2 : option V) : bool :=
  match v1, v2 with
  | None, None => true
  | Some a, Some b => Equals a b
  | _, _ => false
  end.
End NilSafe.

End valutil.

(** ** Package [row] (row.go) *)

Module row.
Import schema.

Section Row.
Context {V TypeInfo : Type}.
Variable Equals : V -> V -> bool.

(** A non-nil [row.Row]: the sparse mapping from tag to value of
    section 3. *)
Abbreviation Row := (gmap Z V).

(** [r.GetColVal(tag)]: the value (nil when absent) and the ok flag. *)
Definition GetColVal (r : Row) (tag : Z) : Value * bool :=
  match r !! tag with
  | Some v => (Some v, true)
  | None => (None, false)
  end.

(** [for _, cnst := range col.Constraints]: true when the loop reaches
    a constraint the value does not satisfy. *)
Fixpoint hitsViolation (cnsts : list (ColConstraint V)) (val : @Value V) : bool :=
  match cnsts with
  | [] => false
  | cnst :: rest =>
      if negb (SatisfiesConstraint cnst val) then true
      else hitsViolation rest val
  end.

Definition IsValid (r : Row) (sch : Schema V TypeInfo) : bool :=
  let allCols := GetAllCols sch in
  Iter allCols
    (fun tag col (valid : bool) =>
       if Nat.ltb 0 (length (Constraints col)) then
         let val := fst (GetColVal r tag) in
         if hitsViolation (Constraints col) val then (false, true)
         else (valid, false)
       else (valid, false))
    true.

Definition GetInvalidCol (r : Row) (sch : Schema V TypeInfo)
  : option (Column V TypeInfo) :=
  let allCols := GetAllCols sch in
  Iter allCols
    (fun tag col (badCol : option (Column V TypeInfo)) =>
       if Nat.ltb 0 (length (Constraints col)) then
         let val := fst (GetColVal r tag) in
         if hitsViolation (Constraints col) val then (Some col, true)
         else (badCol, false)
       else (badCol, false))
    None.

(** [for _, tag := range sch.GetAllCols().Tags] of [AreEqual]. *)
Fixpoint tagsAgree (tags : list Z) (row1 row2 : Row) : bool :=
  match tags with
  | [] => true
  | tag :: rest =>
      let val1 := fst (GetColVal row1 tag) in
      let val2 := fst (GetColVal row2 tag) in
      if negb (valutil.NilSafeEqCheck Equals val1 val2) then false
      else tagsAgree rest row1 row2
  end.

(** [row1], [row2] are interface values: [None] is the nil row. *)
Definition AreEqual (row1 row2 : option Row) (sch : Schema V TypeInfo) : bool :=
  match row1, row2 with
  | None, None => true
  | None, Some _ | Some _, None => false
  | Some r1, Some r2 => tagsAgree (Tags (GetAllCols sch)) r1 r2
  end.

(** The reading of validity in section 3: every tag present in the row
    satisfies the constraints of its column. *)
Definition presentTagsSatisfy (r : Row) (sch : Schema V TypeInfo) : Prop :=
  forall col v cnst,
    col ∈ GetAllCols sch -> r !! Tag col = Some v ->
    cnst ∈ Constraints col -> SatisfiesConstraint cnst (Some v) = true.

(** An implementation of the [ColConstraint] interface that, like a
    NOT NULL constraint, the nil value does not satisfy. *)
Definition rejectsNil : ColConstraint V :=
  mkConstraint (fun value => match value with Some _ => true | None => false end).

(** Modelled from the spec: [Row.IterCols] is an interface method
    implemented outside src/; on the sparse mapping of section 3 it hands
    each present column to the callback, once, until the callback asks to
    stop, and reports whether it was stopped. *)
Fixpoint iterEntries {S : Type} (entries : list (Z * V))
    (cb : Z -> @Value V -> S -> S * bool) (st : S) : S * bool :=
  match entries with
  | [] => (st, false)
  | (tag, val) :: rest =>
      let '(st', stop) := cb tag (Some val) st in
      if stop then (st', true) else iterEntries rest cb st'
  end.

Definition IterCols {S : Type} (r : Row)
    (cb : Z -> @Value V -> S -> S * bool) (st : S) : S * bool :=
  iterEntries (map_to_list r) cb st.

(** [type TaggedValues map[uint64]types.Value] as [GetTaggedVals] fills
    it. *)
Definition GetTaggedVals (row : Row) : gmap Z (@Value V) :=
  let taggedVals : gmap Z (@Value V) := ∅ in
  fst (IterCols row (fun tag val taggedVals => (<[tag := val]> taggedVals, false))
                taggedVals).

(** A column one of whose constraints the row's value does not satisfy. *)
Definition violates (r : Row) (col : Column V TypeInfo) : Prop :=
  exists cnst, cnst ∈ Constraints col /\ SatisfiesConstraint cnst (r !! Tag col) = false.

(** Null-safe equality of two looked-up values, spelled out. *)
Definition nullSafeEqual (o1 o2 : option V) : Prop :=
  match o1, o2 with
  | None, None => True
  | Some a, Some b => Equals a b = true
  | _, _ => False
  end.

End Row.

End row.

(** ** Package [commands] (diff.go) *)

Module commands.
Import schema diff.

(** [type diffOutput int], [type diffPart int] and their constants. *)
Definition SchemaOnlyDiff : Z := 1.
Definition DataOnlyDiff : Z := 2.
Definition Summary : Z := 4.
Definition SchemaAndDataDiff : Z := Z.lor SchemaOnlyDiff DataOnlyDiff.
Definition TabularDiffOutput : Z := 1.
Definition SQLDiffOutput : Z := 2.

(** [type diffArgs struct]; [tableSet] is a [*set.StrSet]. *)
Record diffArgs : Type := mkArgs {
  diffParts : Z;
  diffOutput : Z;
  tableSet : gset string;
  limit : Z;
  where_ : string
}.

(** [strconv.FormatUint(tag, 10)] *)
Definition FormatUint10 (tag : Z) : string :=
  NilEmpty.string_of_uint (N.to_uint (Z.to_N tag)).

Section DumbDown.
Context {V TypeInfo : Type}.

(** What the callback of [dumbDownSchema] appends for one column. *)
Definition dumbed (col : Column V TypeInfo) : Column V TypeInfo :=
  mkColumn (FormatUint10 (Tag col)) (Tag col) (TypeDesc col) (IsPartOfPK col) [].

Definition dumbDownSchema (in_ : Schema V TypeInfo) : outcome (Schema V TypeInfo) :=
  let allCols := GetAllCols in_ in
  let '(dumbCols, err) :=
    IterErr allCols
      (fun tag col (dumbCols : list (Column V TypeInfo)) =>
         let col1 := mkColumn (FormatUint10 tag) (Tag col) (TypeDesc col)
                              (IsPartOfPK col) (Constraints col) in
         let col2 := mkColumn (Name col1) (Tag col1) (TypeDesc col1)
                              (IsPartOfPK col1) [] in
         (dumbCols ++ [col2], false, None))
      [] in
  match err with
  | Some e => Err e
  | None =>
      (* dumbColColl, _ := schema.NewColCollection(dumbCols...): the
         error is dropped and a nil collection reaches SchemaFromCols *)
      match NewColCollection dumbCols with
      | Okay dumbColColl => Ret (SchemaFromCols dumbColColl)
      | Fails _ => Panic NilDereference
      end
  end.

Definition mapTagToColName (sch untypedUnionSch : option (Schema V TypeInfo))
  : outcome (gmap Z string) :=
  sch' ← deref sch;
  let allCols := GetAllCols sch' in
  union ← deref untypedUnionSch;
  let '(tagToCol, err) :=
    IterErr (GetAllCols union)
      (fun tag _ (tagToCol : gmap Z string) =>
         match GetByTag allCols tag with
         | Some col => (<[tag := Name col]> tagToCol, false, None)
         | None => (<[tag := EmptyString]> tagToCol, false, None)
         end)
      ∅ in
  match err with
  | Some _ => Err "error: failed to map columns to tags"
  | None => Ret tagToCol
  end.
End DumbDown.

(** *** The pipeline the diff rows flow through *)

Section Rows.
Context {V TypeInfo : Type}.
(** Types of the collaborating packages. *)
Context {NomsMap Joiner FieldMapping RowConverter DiffSplitter Source Sink FilterFn : Type}.

Abbreviation Sch := (Schema V TypeInfo).
Abbreviation Row := (gmap Z V).

(** Constants of the package declared outside diff.go. *)
Variable fwtStageName : string.
Variable NullPrintingStage : string.
Variable DiffTypeProp : string.

(** Collaborators (packages rowconv, untyped, diff, pipeline). *)
Variable NewJoiner : option Sch -> option Sch -> fallible Joiner.
Variable JoinerSchema : Joiner -> Sch.
Variable UntypedSchemaUnion : Sch -> Sch -> fallible Sch.
Variable TagMapping : Sch -> option Sch -> fallible FieldMapping.
Variable NewRowConverter : FieldMapping -> RowConverter.
Variable IdentityConverter : RowConverter.
Variable NewDiffSplitter : Joiner -> RowConverter -> RowConverter -> DiffSplitter.
Variable NewRowDiffSource : NomsMap -> NomsMap -> Joiner -> Source.
Variable NewColorDiffSink : option Sch -> Z -> fallible Sink.
Variable NewSQLDiffSink : option Sch -> string -> fallible Sink.
Variable ParseWhere : Sch -> string -> fallible (option FilterFn).
Variable NewRowFromTaggedStrings : option Sch -> gmap Z string -> fallible Row.

(** A row waiting at the input of a named stage, with its properties. *)
Record injection : Type := mkInjection {
  atStage : string;
  injRow : Row;
  injProps : gmap string DiffChType
}.

(** [pipeline.Pipeline], by what the command does to it: the named
    stages in order, the rows injected so far, and whether it runs. *)
Record Pipeline : Type := mkPipeline {
  stages : list string;
  injected : list injection;
  isRunning : bool
}.

(** What [p.Wait()] returns and what the bad-row callback recorded. *)
Variable Wait : Pipeline -> option string * option string.

(** Modelled from the spec: [Pipeline.InjectRowWithProps] is outside
    src/. Section 4.4: the row is enqueued at the named stage's input,
    in FIFO order per injection point. *)
Definition InjectRowWithProps (p : Pipeline) (name : string) (r : Row)
    (props : gmap string DiffChType) : Pipeline :=
  mkPipeline (stages p) (injected p ++ [mkInjection name r props]) (isRunning p).

(** Modelled from the spec: [Pipeline.InjectRow], the same without
    properties. *)
Definition InjectRow (p : Pipeline) (name : string) (r : Row) : Pipeline :=
  InjectRowWithProps p name r ∅.

(** The header rows waiting at the fixed-width-formatting stage: one row
    of the new-side names without properties when the two name maps are
    equal, else the old-side names marked [DiffModifiedOld] followed by
    the new-side names marked [DiffModifiedNew]. *)
Definition headerRows (unionSch : option Sch) (oldColNames newColNames : gmap Z string)
    (rows : list injection) : Prop :=
  (oldColNames = newColNames /\
   exists schRow,
     NewRowFromTaggedStrings unionSch newColNames = Okay schRow
     /\ rows = [mkInjection fwtStageName schRow ∅])
  \/
  (oldColNames <> newColNames /\
   exists oldNamesRow newNamesRow,
     NewRowFromTaggedStrings unionSch oldColNames = Okay oldNamesRow
     /\ NewRowFromTaggedStrings unionSch newColNames = Okay newNamesRow
     /\ rows = [mkInjection fwtStageName oldNamesRow {[ DiffTypeProp := DiffModifiedOld ]};
                mkInjection fwtStageName newNamesRow {[ DiffTypeProp := DiffModifiedNew ]}]).

Definition Start (p : Pipeline) : Pipeline :=
  mkPipeline (stages p) (injected p) true.

(** The union schema [createSplitter] settles on (its first
    statement); [None] is the nil schema. *)
Definition unionSchemaFor (fromSch toSch : option Sch) (dArgs : diffArgs)
  : outcome (option Sch) :=
  if Z.eqb (diffOutput dArgs) TabularDiffOutput then
    dumbNewSch ← (toSch' ← deref toSch; dumbDownSchema toSch');
    dumbOldSch ← (fromSch' ← deref fromSch; dumbDownSchema fromSch');
    unionSch ← orErr (fun _ => "Failed to merge schemas")
                     (UntypedSchemaUnion dumbNewSch dumbOldSch);
    mret (Some unionSch)
  else
    mret toSch.

(** The union schema stems from the two dumbed-down sides. *)
Definition fromDumbedSides (fromSch toSch unionSch : option Sch) : Prop :=
  exists toS fromS dumbNewSch dumbOldSch union,
    toSch = Some toS /\ fromSch = Some fromS
    /\ dumbDownSchema toS = Ret dumbNewSch
    /\ dumbDownSchema fromS = Ret dumbOldSch
    /\ UntypedSchemaUnion dumbNewSch dumbOldSch = Okay union
    /\ unionSch = Some union.

Definition createSplitter (fromSch toSch : option Sch) (joiner : Joiner)
    (dArgs : diffArgs) : outcome (option Sch * DiffSplitter) :=
  unionSch ← unionSchemaFor fromSch toSch dArgs;
  newToUnionConv ←
    match toSch with
    | Some toSch' =>
        newToUnionMapping ← orErr (fun e => "Error creating unioned mapping: " +:+ e)
                                  (TagMapping toSch' unionSch);
        mret (NewRowConverter newToUnionMapping)
    | None => mret IdentityConverter
    end;
  oldToUnionConv ←
    match fromSch with
    | Some fromSch' =>
        oldToUnionMapping ← orErr (fun e => "Error creating unioned mapping: " +:+ e)
                                  (TagMapping fromSch' unionSch);
        mret (NewRowConverter oldToUnionMapping)
    | None => mret IdentityConverter
    end;
  let ds := NewDiffSplitter joiner oldToUnionConv newToUnionConv in
  mret (unionSch, ds).

Definition buildPipeline (dArgs : diffArgs) (joiner : Joiner) (ds : DiffSplitter)
    (untypedUnionSch : option Sch) (src : Source) (sink : Sink) : outcome Pipeline :=
  where' ← orErr (fun e => "error: failed to parse where clause: " +:+ e)
                 (ParseWhere (JoinerSchema joiner) (where_ dArgs));
  let transforms : list string := [] in
  let transforms :=
    if bool_decide (is_Some where') || negb (Z.eqb (limit dArgs) 0)
    then transforms ++ ["select"] else transforms in
  let transforms := transforms ++ ["split_diffs"] in
  let transforms :=
    if Z.eqb (diffOutput dArgs) TabularDiffOutput
    then transforms ++ [NullPrintingStage; fwtStageName] else transforms in
  mret (mkPipeline transforms [] false).

(** [diffRows] up to, and not including, [p.Start()]. *)
Definition diffRowsSetup (fromRows toRows : NomsMap) (fromSch toSch : option Sch)
    (dArgs : diffArgs) (tblName : string) : outcome Pipeline :=
  joiner ← orErr id (NewJoiner fromSch toSch);
  '(unionSch, ds) ← createSplitter fromSch toSch joiner dArgs;
  let src := NewRowDiffSource fromRows toRows joiner in
  oldColNames ← mapTagToColName fromSch unionSch;
  newColNames ← mapTagToColName toSch unionSch;
  let schemasEqual := bool_decide (oldColNames = newColNames) in
  let numHeaderRows := if negb schemasEqual then 2 else 1 in
  sink ← orErr id
    (if Z.eqb (diffOutput dArgs) TabularDiffOutput
     then NewColorDiffSink unionSch numHeaderRows
     else NewSQLDiffSink unionSch tblName);
  p ← buildPipeline dArgs joiner ds unionSch src sink;
  if negb (Z.eqb (diffOutput dArgs) SQLDiffOutput) then
    if schemasEqual then
      schRow ← orErr (fun e => "error: creating diff header: " +:+ e)
                     (NewRowFromTaggedStrings unionSch newColNames);
      mret (InjectRow p fwtStageName schRow)
    else
      newSchRow ← orErr (fun e => "error: creating diff header: " +:+ e)
                        (NewRowFromTaggedStrings unionSch oldColNames);
      let p := InjectRowWithProps p fwtStageName newSchRow
                 {[ DiffTypeProp := DiffModifiedOld ]} in
      oldSchRow ← orErr (fun e => "error: creating diff header: " +:+ e)
                        (NewRowFromTaggedStrings unionSch newColNames);
      mret (InjectRowWithProps p fwtStageName oldSchRow
              {[ DiffTypeProp := DiffModifiedNew ]})
  else mret p.

Definition diffRows (fromRows toRows : NomsMap) (fromSch toSch : option Sch)
    (dArgs : diffArgs) (tblName : string) : outcome unit :=
  p ← diffRowsSetup fromRows toRows fromSch toSch dArgs tblName;
  let p := Start p in
  match Wait p with
  | (Some err, _) => Err ("Error diffing: " +:+ err)
  | (None, Some badRowVErr) => Err badRowVErr
  | (None, None) => mret tt
  end.

End Rows.

(** *** Walking the table deltas *)

Section Roots.
Context {V TypeInfo : Type}.
Context {NomsMap Joiner FieldMapping RowConverter DiffSplitter Source Sink FilterFn : Type}.
Context {Root Table : Type}.

Abbreviation Sch := (Schema V TypeInfo).

(** Modelled from the spec: [diff.TableDelta] is declared outside src/.
    Section 3 gives its fields and [IsAdd() <=> fromTable absent],
    [IsDrop() <=> toTable absent]. *)
Record TableDelta : Type := mkDelta {
  FromName : string;
  ToName : string;
  FromTable : option Table;
  ToTable : option Table
}.

(** Modelled from the spec: [IsAdd() <=> fromTable absent]. *)
Definition IsAdd (td : TableDelta) : bool := bool_decide (FromTable td = None).

(** Modelled from the spec: [IsDrop() <=> toTable absent]. *)
Definition IsDrop (td : TableDelta) : bool := bool_decide (ToTable td = None).

Variable fwtStageName : string.
Variable NullPrintingStage : string.
Variable DiffTypeProp : string.
Variable DocTableName : string.

Variable NewJoiner : option Sch -> option Sch -> fallible Joiner.
Variable JoinerSchema : Joiner -> Sch.
Variable UntypedSchemaUnion : Sch -> Sch -> fallible Sch.
Variable TagMapping : Sch -> option Sch -> fallible FieldMapping.
Variable NewRowConverter : FieldMapping -> RowConverter.
Variable IdentityConverter : RowConverter.
Variable NewDiffSplitter : Joiner -> RowConverter -> RowConverter -> DiffSplitter.
Variable NewRowDiffSource : NomsMap -> NomsMap -> Joiner -> Source.
Variable NewColorDiffSink : option Sch -> Z -> fallible Sink.
Variable NewSQLDiffSink : option Sch -> string -> fallible Sink.
Variable ParseWhere : Sch -> string -> fallible (option FilterFn).
Variable NewRowFromTaggedStrings : option Sch -> gmap Z string -> fallible (gmap Z V).
Variable Wait : @Pipeline V -> option string * option string.

Variable GetTableDeltas : Root -> Root -> fallible (list TableDelta).
Variable UnionTableNames : Root -> Root -> fallible (list string).
Variable GetSchemas : TableDelta -> fallible (option Sch * option Sch).
Variable GetMaps : TableDelta -> fallible (NomsMap * NomsMap).
Variable SchemasAreEqual : option Sch -> option Sch -> bool.
Variable HashOf : Table -> fallible string.
(** What [diff.Summary] delivers on the channel for two maps, and the
    error it ends with. *)
Variable SummaryRun : NomsMap -> NomsMap -> list summary.delivery * option string.

Definition printTableDiffSummary (tblName : string) (fromTable toTable : option Table)
  : outcome unit :=
  if String.eqb tblName DocTableName then mret tt (* printDocDiffs *)
  else
    match toTable, fromTable with
    | None, _ => mret tt            (* "deleted table" *)
    | Some _, None => mret tt       (* "added table" *)
    | Some toT, Some fromT =>
        match HashOf fromT with
        | Fails err => Panic (PanicError err)
        | Okay _ =>
            match HashOf toT with
            | Fails err => Panic (PanicError err)
            | Okay _ => mret tt
            end
        end
    end.

Definition sqlSchemaDiff (td : TableDelta) : outcome unit :=
  _ ← orErr (fun e => "cannot retrieve schema for table " +:+ ToName td +:+ ": " +:+ e)
            (GetSchemas td);
  mret tt.

Definition addedDroppedPanic : panicValue :=
  PanicString "cannot perform tabular schema diff for added/dropped tables".

Definition diffSchemas (td : TableDelta) (dArgs : diffArgs) : outcome unit :=
  '(fromSch, toSch) ←
     orErr (fun e => "cannot retrieve schema for table " +:+ ToName td +:+ ": " +:+ e)
           (GetSchemas td);
  if SchemasAreEqual fromSch toSch then mret tt
  else if Z.eqb (diffOutput dArgs) TabularDiffOutput then
    if IsDrop td || IsAdd td then
      Panic addedDroppedPanic
    else mret tt (* tabularSchemaDiff prints and returns nil *)
  else sqlSchemaDiff td.

(** The named result [verr] as an optional error. *)
Definition asVErr (o : outcome unit) : outcome (option string) :=
  match o with
  | Ret _ => Ret None
  | Err e => Ret (Some e)
  | Panic v => Panic v
  end.

(** One invocation of [diffSchemas], as [diffRoots] makes it. *)
Definition schemaCall : Type := (TableDelta * diffArgs)%type.

(** An invocation that is not a tabular schema diff of an added or
    dropped table. *)
Definition onExistingTable (c : schemaCall) : Prop :=
  diffOutput (snd c) = TabularDiffOutput ->
  IsAdd (fst c) = false /\ IsDrop (fst c) = false.

(** How one pass through the body of [for _, td := range tableDeltas]
    ends: on to the next delta (fall through or [continue]) with the
    current [verr], or out of [diffRoots]. *)
Inductive loopCtl : Type :=
  | Next (verr : option string) (calls : list schemaCall)
  | Stop (r : outcome unit) (calls : list schemaCall).

(** What one pass through the loop body keeps. *)
Definition stepKeeps (c : loopCtl) : Prop :=
  match c with
  | Next _ calls => Forall onExistingTable calls
  | Stop r calls => Forall onExistingTable calls /\ stringPanicFree r
  end.

Definition diffTableDelta (dArgs : diffArgs) (td : TableDelta) (verr : option string)
  : loopCtl :=
  if negb (bool_decide (FromName td ∈ tableSet dArgs))
     && negb (bool_decide (ToName td ∈ tableSet dArgs))
  then Next verr []
  else
    let tblName := ToName td in
    let fromTable := FromTable td in
    let toTable := ToTable td in
    if bool_decide (fromTable = None) && bool_decide (toTable = None)
    then Stop (Err "error: both tables in tableDelta are nil") []
    else
      let isTabular := Z.eqb (diffOutput dArgs) TabularDiffOutput in
      match (if isTabular then printTableDiffSummary tblName fromTable toTable
             else mret tt) with
      | Panic v => Stop (Panic v) []
      | Err e => Stop (Err e) []
      | Ret _ =>
        if isTabular && (IsDrop td || IsAdd td) then Next verr []
        else if String.eqb tblName DocTableName then Next verr []
        else
          match GetSchemas td with
          | Fails e =>
              Stop (Err ("cannot retrieve schema for table " +:+ ToName td +:+ ": " +:+ e)) []
          | Okay (fromSch, toSch) =>
          match GetMaps td with
          | Fails e =>
              Stop (Err ("could not get row data for table " +:+ ToName td +:+ ": " +:+ e)) []
          | Okay (fromMap, toMap) =>
          (* dArgs.diffParts&Summary != 0 *)
          match (if negb (Z.eqb (Z.land (diffParts dArgs) Summary) 0) then
                   fromSch' ← deref fromSch;
                   let numCols := Size (GetAllCols fromSch') in
                   let '(ch, err) := SummaryRun fromMap toMap in
                   mret (fst (summary.diffSummary ch err numCols))
                 else mret verr) with
          | Panic v => Stop (Panic v) []
          | Err e => Stop (Err e) []
          | Ret verr1 =>
          (* dArgs.diffParts&SchemaOnlyDiff != 0 *)
          let schemaPart := negb (Z.eqb (Z.land (diffParts dArgs) SchemaOnlyDiff) 0) in
          let calls := if schemaPart then [(td, dArgs)] else [] in
          match (if schemaPart then asVErr (diffSchemas td dArgs) else mret verr1) with
          | Panic v => Stop (Panic v) calls
          | Err e => Stop (Err e) calls
          | Ret verr2 =>
          (* dArgs.diffParts&DataOnlyDiff != 0 *)
          if negb (Z.eqb (Z.land (diffParts dArgs) DataOnlyDiff) 0) then
            if IsDrop td && Z.eqb (diffOutput dArgs) SQLDiffOutput
            then Next verr2 calls (* continue *)
            else
              let fromSch := if IsAdd td then toSch else fromSch in
              match asVErr (diffRows fwtStageName NullPrintingStage DiffTypeProp
                              NewJoiner JoinerSchema UntypedSchemaUnion TagMapping
                              NewRowConverter IdentityConverter NewDiffSplitter
                              NewRowDiffSource NewColorDiffSink NewSQLDiffSink
                              ParseWhere NewRowFromTaggedStrings Wait
                              fromMap toMap fromSch toSch dArgs tblName) with
              | Panic v => Stop (Panic v) calls
              | Err e => Stop (Err e) calls
              | Ret (Some e) => Stop (Err e) calls
              | Ret None => Next None calls
              end
          else
            match verr2 with
            | Some e => Stop (Err e) calls
            | None => Next None calls
            end
          end
          end
          end
          end
      end.

Fixpoint diffRootsLoop (dArgs : diffArgs) (tableDeltas : list TableDelta)
    (verr : option string) : outcome unit * list schemaCall :=
  match tableDeltas with
  | [] => (Ret tt, [])
  | td :: rest =>
      match diffTableDelta dArgs td verr with
      | Stop r calls => (r, calls)
      | Next verr' calls =>
          let '(r, later) := diffRootsLoop dArgs rest verr' in
          (r, calls ++ later)
      end
  end.

(** [diffRoots]: its result, and the invocations of [diffSchemas] it made,
    in order. *)
Definition diffRoots (fromRoot toRoot : Root) (dArgs : diffArgs)
  : outcome unit * list schemaCall :=
  match GetTableDeltas fromRoot toRoot with
  | Fails e => (Err ("error: unable to diff tables: " +:+ e), [])
  | Okay tableDeltas =>
      if bool_decide (size (tableSet dArgs) = 0%nat) then
        match UnionTableNames fromRoot toRoot with
        | Fails e => (Err ("error: failed to get table names: " +:+ e), [])
        | Okay utn =>
            let dArgs' := mkArgs (diffParts dArgs) (diffOutput dArgs)
                                 (tableSet dArgs ∪ list_to_set utn)
                                 (limit dArgs) (where_ dArgs) in
            diffRootsLoop dArgs' tableDeltas None
        end
      else diffRootsLoop dArgs tableDeltas None
  end.

End Roots.

(** *** Command-line arguments and roots *)

Definition DataFlag : string := "data".
Definition SchemaFlag : string := "schema".
Definition SummaryFlag : string := "summary".
Definition whereParam : string := "where".
Definition limitParam : string := "limit".
Definition SQLFlag : string := "sql".

(** The methods of [*argparser.ArgParseResults] that [parseDiffArgs]
    calls. *)
Record ArgParseResults : Type := mkApr {
  Contains : string -> bool;
  GetInt : string -> Z * bool;
  GetValueOrDefault : string -> string -> string;
  Args : list string
}.

Section Args.
Context {Root Table CommitSpec Commit : Type}.

(** [dEnv.RepoState.CWBHeadRef().String()] *)
Variable CWBHeadRef : string.
Variable NewCommitSpec : string -> string -> fallible CommitSpec.
Variable Resolve : CommitSpec -> fallible Commit.
Variable GetRootValue : Commit -> fallible Root.
(** [dEnv.HeadRoot(ctx)] and [dEnv.WorkingRoot(ctx)]: the pointer and the
    error they return. *)
Variable HeadRoot : option Root * option string.
Variable WorkingRoot : option Root * option string.
(** [root.GetTable(ctx, tbl)]: the table when found, or the error. *)
Variable GetTable : Root -> string -> fallible (option Table).

Definition maybeResolve (spec : string) : option Root :=
  match NewCommitSpec spec CWBHeadRef with
  | Fails _ => None
  | Okay cs =>
      match Resolve cs with
      | Fails _ => None
      | Okay cm =>
          match GetRootValue cm with
          | Fails _ => None
          | Okay root => Some root
          end
      end
  end.

Definition getRoots (args : list string)
  : outcome (option Root * option Root * list string) :=
  let '(headRoot, _) := HeadRoot in
  let '(workingRoot, err) := WorkingRoot in
  match err with
  | Some e => Err e
  | None =>
      match args with
      | [] => Ret (headRoot, workingRoot, [])
      | arg0 :: afterFirst =>
          match maybeResolve arg0 with
          | None => Ret (headRoot, workingRoot, args)
          | Some from =>
              match afterFirst with
              | [] => Ret (Some from, workingRoot, [])
              | arg1 :: afterSecond =>
                  match maybeResolve arg1 with
                  | None => Ret (Some from, workingRoot, afterFirst)
                  | Some to => Ret (Some from, Some to, afterSecond)
                  end
              end
          end
      end
  end.

(** [for _, tbl := range leftover] of [parseDiffArgs]: every table
    argument must exist in at least one root. *)
Fixpoint verifyTables (from to : option Root) (leftover : list string) : outcome unit :=
  match leftover with
  | [] => Ret tt
  | tbl :: rest =>
      from' ← deref from;
      match GetTable from' tbl with
      | Fails e => Err e
      | Okay (Some _) => verifyTables from to rest
      | Okay None =>
          to' ← deref to;
          match GetTable to' tbl with
          | Fails e => Err e
          | Okay None =>
              Err ("table " +:+ tbl +:+ " does not exist in either diff root")
          | Okay (Some _) => verifyTables from to rest
          end
      end
  end.

Definition parseDiffArgs (apr : ArgParseResults)
  : outcome (option Root * option Root * diffArgs) :=
  let parts := SchemaAndDataDiff in
  let parts :=
    if Contains apr DataFlag && negb (Contains apr SchemaFlag) then DataOnlyDiff
    else if Contains apr SchemaFlag && negb (Contains apr DataFlag) then SchemaOnlyDiff
    else parts in
  let output := if Contains apr SQLFlag then SQLDiffOutput else TabularDiffOutput in
  if Contains apr SummaryFlag && (Contains apr SchemaFlag || Contains apr DataFlag)
  then Err "invalid Arguments: --summary cannot be combined with --schema or --data"
  else
    let parts := if Contains apr SummaryFlag then Summary else parts in
    let limit := fst (GetInt apr limitParam) in
    let where' := GetValueOrDefault apr whereParam EmptyString in
    '(from, to, leftover) ← getRoots (Args apr);
    let tableSet : gset string := list_to_set leftover in
    _ ← verifyTables from to leftover;
    mret (from, to, mkArgs parts output tableSet limit where').

(** A table argument that one of the two roots has. *)
Definition inSomeRoot (from to : option Root) (tbl : string) : Prop :=
  (exists r t, from = Some r /\ GetTable r tbl = Okay (Some t))
  \/ (exists r t, to = Some r /\ GetTable r tbl = Okay (Some t)).

End Args.

(** *** Printing the lines of a document diff *)

Inductive lineColour : Type := Green | Red | Plain.

(** [printDiffLines]: the lines written, and whether the loop ended in the
    index-out-of-range panic of [line[0]] on an empty line. *)
Fixpoint printDiffLines (lines : list string) : list (lineColour * string) * bool :=
  match lines with
  | [] => ([], false)
  | line :: rest =>
      match line with
      | EmptyString => ([], true)
      | String first afterFirst =>
          let written :=
            if String.eqb (String first EmptyString) "+" then (Green, "+ " +:+ afterFirst)
            else if String.eqb (String first EmptyString) "-" then (Red, "- " +:+ afterFirst)
            else (Plain, " " +:+ line) in
          let '(more, panicked) := printDiffLines rest in
          (written :: more, panicked)
      end
  end.

(** The line of the diff a written line stands for: the written text
    without the blank that [printDiffLines] puts after the marker. *)
Definition sourceLine (written : lineColour * string) : string :=
  match written with
  | (Plain, String _ line) => line
  | (_, String marker (String _ afterFirst)) => String marker afterFirst
  | (_, text) => text
  end.

(** The name [mapTagToColName] records for a tag: the column's name in
    the schema, or the empty string when the schema lacks the tag. *)
Definition nameOrEmpty {V TypeInfo : Type} (sch : Schema V TypeInfo) (tag : Z) : string :=
  match GetByTag (GetAllCols sch) tag with
  | Some col => Name col
  | None => EmptyString
  end.

End commands.

(** ** A small instance: two versions of a table, trivial collaborators *)

Module sample.
Import schema diff commands.

Definition Sch : Type := Schema string unit.

Definition people : Sch :=
  SchemaFromCols [mkColumn "id" 0 tt true [row.rejectsNil]; mkColumn "name" 1 tt false []].

Definition peopleRenamed : Sch :=
  SchemaFromCols [mkColumn "id" 0 tt true [row.rejectsNil];
                  mkColumn "full_name" 1 tt false []].

Definition fwtStageName : string := "fwt".
Definition NullPrintingStage : string := "null printing".
Definition DiffTypeProp : string := "difftype".
Definition DocTableName : string := "dolt_docs".

Definition NewJoiner (_ _ : option Sch) : fallible unit := Okay tt.
Definition JoinerSchema (_ : unit) : Sch := people.
(** The union keeps the left columns and appends the right columns whose
    tag the left side lacks. *)
Definition UntypedSchemaUnion (a b : Sch) : fallible Sch :=
  Okay (SchemaFromCols
          (GetAllCols a ++
           List.filter (fun c => negb (existsb (Z.eqb (Tag c)) (Tags (GetAllCols a))))
                       (GetAllCols b))).
Definition TagMapping (_ : Sch) (_ : option Sch) : fallible unit := Okay tt.
Definition NewRowConverter (_ : unit) : unit := tt.
Definition NewDiffSplitter (_ _ _ : unit) : unit := tt.
Definition NewRowDiffSource (_ _ _ : unit) : unit := tt.
Definition NewColorDiffSink (_ : option Sch) (_ : Z) : fallible unit := Okay tt.
Definition NewSQLDiffSink (_ : option Sch) (_ : string) : fallible unit := Okay tt.
Definition ParseWhere (_ : Sch) (_ : string) : fallible (option unit) := Okay None.
Definition NewRowFromTaggedStrings (_ : option Sch) (names : gmap Z string)
  : fallible (gmap Z string) := Okay names.
Definition Wait (_ : @Pipeline string) : option string * option string := (None, None).

Definition modified : @TableDelta unit := mkDelta "people" "people" (Some tt) (Some tt).
Definition added : @TableDelta unit := mkDelta "pets" "pets" None (Some tt).
Definition dropped : @TableDelta unit := mkDelta "cars" "cars" (Some tt) None.

Definition GetTableDeltas (_ _ : unit) : fallible (list (@TableDelta unit)) :=
  Okay [added; modified; dropped].
Definition UnionTableNames (_ _ : unit) : fallible (list string) :=
  Okay ["pets"; "people"; "cars"].
Definition GetSchemas (_ : @TableDelta unit) : fallible (option Sch * option Sch) :=
  Okay (Some people, Some peopleRenamed).
Definition GetMaps (_ : @TableDelta unit) : fallible (unit * unit) := Okay (tt, tt).
Definition SchemasAreEqual (_ _ : option Sch) : bool := false.
Definition HashOf (_ : unit) : fallible string := Okay "hash".
Definition SummaryRun (_ _ : unit) : list summary.delivery * option string := ([], None).

Definition tabular : diffArgs := mkArgs SchemaAndDataDiff TabularDiffOutput ∅ 0 EmptyString.
Definition sql : diffArgs := mkArgs SchemaAndDataDiff SQLDiffOutput ∅ 0 EmptyString.

Definition createSplitter :=
  commands.createSplitter UntypedSchemaUnion TagMapping NewRowConverter tt NewDiffSplitter.

Definition diffRowsSetup :=
  commands.diffRowsSetup fwtStageName NullPrintingStage DiffTypeProp NewJoiner
    JoinerSchema UntypedSchemaUnion TagMapping NewRowConverter tt NewDiffSplitter
    NewRowDiffSource NewColorDiffSink NewSQLDiffSink ParseWhere NewRowFromTaggedStrings.

Definition diffRoots :=
  commands.diffRoots fwtStageName NullPrintingStage DiffTypeProp DocTableName NewJoiner
    JoinerSchema UntypedSchemaUnion TagMapping NewRowConverter tt NewDiffSplitter
    NewRowDiffSource NewColorDiffSink NewSQLDiffSink ParseWhere NewRowFromTaggedStrings
    Wait GetTableDeltas UnionTableNames GetSchemas GetMaps SchemasAreEqual HashOf
    SummaryRun.

(** A tag mapping that always fails. *)
Definition failingTagMapping (_ : Sch) (_ : option Sch) : fallible unit :=
  Fails "no mapping".

Definition HeadRoot : option string * option string := (None, Some "no head").
Definition WorkingRoot : option string * option string := (Some "working", None).
(** Commit specs are branch names; only [master] and [feature] resolve. *)
Definition NewCommitSpec (spec _ : string) : fallible string := Okay spec.
Definition Resolve (cs : string) : fallible string :=
  if String.eqb cs "master" || String.eqb cs "feature" then Okay cs
  else Fails "no such commit".
Definition GetRootValue (cm : string) : fallible string := Okay ("root of " +:+ cm).
(** Every root has the table [people] and no other. *)
Definition GetTable (_ : string) (tbl : string) : fallible (option unit) :=
  Okay (if String.eqb tbl "people" then Some tt else None).

Definition getRoots :=
  commands.getRoots "refs/heads/master" NewCommitSpec Resolve GetRootValue
    HeadRoot WorkingRoot.

Definition parseDiffArgs :=
  commands.parseDiffArgs "refs/heads/master" NewCommitSpec Resolve GetRootValue
    HeadRoot WorkingRoot GetTable.

(** [dolt diff --sql master people] *)
Definition sqlOfPeople : ArgParseResults :=
  mkApr (fun flag => String.eqb flag SQLFlag) (fun _ => (0, false))
        (fun _ default => default) ["master"; "people"].

End sample.

(** * Properties *)

(** ** Arithmetic modulo 2^64 *)

Module U64Facts.

Lemma modulus_pos : 0 < U64.modulus.
Proof. reflexivity. Qed.

Lemma wrap_inRange z : U64.inRange (U64.wrap z).
Proof. unfold U64.inRange, U64.wrap. apply Z.mod_pos_bound, modulus_pos. Qed.

Lemma wrap_small z : U64.inRange z -> U64.wrap z = z.
Proof. unfold U64.inRange, U64.wrap. intros H. now apply Z.mod_small. Qed.

Lemma wrap_wrap z : U64.wrap (U64.wrap z) = U64.wrap z.
Proof. apply wrap_small, wrap_inRange. Qed.

Lemma wrap_add_l a b : U64.wrap (U64.wrap a + b) = U64.wrap (a + b).
Proof. unfold U64.wrap. now rewrite Zplus_mod_idemp_l. Qed.

Lemma sub_wrap_l a b : U64.sub (U64.wrap a) b = U64.wrap (a - b).
Proof. unfold U64.sub, U64.wrap. now rewrite Zminus_mod_idemp_l. Qed.

End U64Facts.

(** ** Conversion of 64-bit integers to binary64 *)

Module F64Facts.

Lemma digits2_pos_bounds (p : positive) :
  2 ^ (Zpos (digits2_pos p) - 1) <= Zpos p < 2 ^ Zpos (digits2_pos p).
Proof.
  induction p as [p IH | p IH |]; cbn [digits2_pos].
  - rewrite Pos2Z.inj_succ.
    replace (Z.succ (Zpos (digits2_pos p)) - 1) with (Z.succ (Zpos (digits2_pos p) - 1)) by lia.
    rewrite !Z.pow_succ_r by lia. lia.
  - rewrite Pos2Z.inj_succ.
    replace (Z.succ (Zpos (digits2_pos p)) - 1) with (Z.succ (Zpos (digits2_pos p) - 1)) by lia.
    rewrite !Z.pow_succ_r by lia. lia.
  - simpl. lia.
Qed.

Lemma digits2_pos_unique (q : positive) (k : Z) :
  2 ^ (k - 1) <= Zpos q < 2 ^ k -> 1 <= k -> Zpos (digits2_pos q) = k.
Proof.
  intros [Hlo Hhi] Hk. pose proof (digits2_pos_bounds q) as [Dlo Dhi].
  set (d := Zpos (digits2_pos q)) in *.
  assert (Hd : 1 <= d) by (unfold d; lia).
  destruct (Z.lt_trichotomy d k) as [Hlt | [Heq | Hgt]]; [|exact Heq|].
  - assert (2 ^ d <= 2 ^ (k - 1)) by (apply Z.pow_le_mono_r; lia). lia.
  - assert (2 ^ k <= 2 ^ (d - 1)) by (apply Z.pow_le_mono_r; lia). lia.
Qed.

Lemma digits2_pos_iter_xO (p k : positive) :
  digits2_pos (Pos.iter xO p k) = (digits2_pos p + k)%positive.
Proof.
  induction k as [| k IH] using Pos.peano_ind.
  - simpl. lia.
  - rewrite Pos.iter_succ. cbn [digits2_pos]. rewrite IH. lia.
Qed.

Lemma shr_1_m (mrs : shr_record) :
  0 <= shr_m mrs -> shr_m (shr_1 mrs) = shr_m mrs / 2.
Proof.
  destruct mrs as [m r s]. simpl. intros Hm.
  rewrite <- Z.div2_div.
  destruct m as [| [p | p |] | p]; try reflexivity; lia.
Qed.

Lemma shift_iter_shr_m (n : positive) (mrs : shr_record) :
  0 <= shr_m mrs -> shr_m (SpecFloat.iter_pos shr_1 n mrs) = shr_m mrs / 2 ^ Zpos n.
Proof.
  revert mrs. induction n as [n IH | n IH |]; intros mrs Hm; cbn [SpecFloat.iter_pos].
  - assert (H1 : 0 <= shr_m (shr_1 mrs)).
    { rewrite shr_1_m by exact Hm. apply Z.div_pos; lia. }
    assert (H2 : 0 <= shr_m (SpecFloat.iter_pos shr_1 n (shr_1 mrs))).
    { rewrite IH by exact H1. apply Z.div_pos; [exact H1 | apply Z.pow_pos_nonneg; lia]. }
    rewrite IH by exact H2. rewrite IH by exact H1. rewrite shr_1_m by exact Hm.
    assert (Hp : 0 < 2 ^ Zpos n) by (apply Z.pow_pos_nonneg; lia).
    assert (E : 2 ^ Zpos n~1 = 2 * (2 ^ Zpos n * 2 ^ Zpos n)).
    { replace (Zpos n~1) with (Z.succ (Zpos n + Zpos n)) by lia.
      rewrite Z.pow_succ_r, Z.pow_add_r by lia. reflexivity. }
    rewrite !Z.div_div by lia. rewrite E. reflexivity.
  - assert (H2 : 0 <= shr_m (SpecFloat.iter_pos shr_1 n mrs)).
    { rewrite IH by exact Hm. apply Z.div_pos; [exact Hm | apply Z.pow_pos_nonneg; lia]. }
    rewrite IH by exact H2. rewrite IH by exact Hm.
    assert (Hp : 0 < 2 ^ Zpos n) by (apply Z.pow_pos_nonneg; lia).
    assert (E : 2 ^ Zpos n~0 = 2 ^ Zpos n * 2 ^ Zpos n).
    { replace (Zpos n~0) with (Zpos n + Zpos n) by lia.
      rewrite Z.pow_add_r by lia. reflexivity. }
    rewrite !Z.div_div by lia. rewrite E. reflexivity.
  - rewrite shr_1_m by exact Hm. reflexivity.
Qed.

Lemma shr_record_of_loc_m (m : Z) (l : location) : shr_m (shr_record_of_loc m l) = m.
Proof. destruct l as [| []]; reflexivity. Qed.

(** One shift stage: the mantissa is divided by [2 ^ n], the exponent
    grows by [n], for the shift [n] that [fexp] asks for (none when
    [n <= 0]). *)
Lemma shr_fexp_spec (m e : Z) (l : location) :
  0 < m ->
  let n := Z.max (Zdigits2 m + e - 53) (-1074) - e in
  let '(mrs, e') := shr_fexp 53 1024 m e l in
  (n <= 0 /\ mrs = shr_record_of_loc m l /\ e' = e)
  \/ (0 < n /\ shr_m mrs = m / 2 ^ n /\ e' = e + n).
Proof.
  intros Hm n. unfold shr_fexp, fexp, emin.
  change (3 - 1024 - 53) with (-1074). fold n.
  unfold shr. destruct n as [| k | k] eqn:Hn.
  - left. repeat split; lia.
  - right. split; [lia|]. split; [|reflexivity].
    rewrite shift_iter_shr_m; rewrite shr_record_of_loc_m; [reflexivity | lia].
  - left. repeat split; lia.
Qed.

Lemma round_nearest_even_bounds (m : Z) (l : location) :
  m <= round_nearest_even m l <= m + 1.
Proof.
  unfold round_nearest_even. destruct l as [| []]; try lia.
  destruct (Z.even m); lia.
Qed.

Lemma loc_of_shr_record_of_loc m : 
  loc_of_shr_record (shr_record_of_loc m loc_Exact) = loc_Exact.
Proof. reflexivity. Qed.

(** Rounding a mantissa of 53 to 64 bits, at a small exponent, gives a
    finite non-zero number. *)
Lemma binary_round_aux_finite (sx : bool) (mx : positive) (ex : Z) :
  53 <= Zpos (digits2_pos mx) <= 64 -> -60 <= ex <= 0 ->
  exists m e, binary_round_aux 53 1024 sx (Zpos mx) ex loc_Exact = S754_finite sx m e.
Proof.
  intros Hd Hex. unfold binary_round_aux.
  pose proof (digits2_pos_bounds mx) as Hmx.
  set (dd := Zpos (digits2_pos mx)) in *.
  pose proof (shr_fexp_spec (Zpos mx) ex loc_Exact ltac:(lia)) as H1.
  cbv zeta in H1. cbn [Zdigits2] in H1. fold dd in H1.
  destruct (shr_fexp 53 1024 (Zpos mx) ex loc_Exact) as [mrs1 e1].
  assert (Hm1 : 2 ^ 52 <= shr_m mrs1 < 2 ^ 53 /\ e1 = ex + dd - 53
                /\ (dd = 53 -> loc_of_shr_record mrs1 = loc_Exact)).
  { destruct H1 as [(Hn & -> & ->) | (Hn & -> & ->)].
    - assert (dd = 53) as Hdd by lia. rewrite Hdd in Hmx. simpl. 
      split; [|split]; [change (53 - 1) with 52 in Hmx; lia | lia | reflexivity].
    - assert (Z.max (dd + ex - 53) (-1074) - ex = dd - 53) as -> by lia.
      assert (Hk : 0 < dd - 53) by lia.
      assert (Hp : 0 < 2 ^ (dd - 53)) by (apply Z.pow_pos_nonneg; lia).
      assert (E1 : 2 ^ (dd - 1) = 2 ^ (dd - 53) * 2 ^ 52).
      { rewrite <- Z.pow_add_r by lia. f_equal. lia. }
      assert (E2 : 2 ^ dd = 2 ^ (dd - 53) * 2 ^ 53).
      { rewrite <- Z.pow_add_r by lia. f_equal. lia. }
      split; [|split]; [| lia | lia].
      split.
      + apply Z.div_le_lower_bound; [exact Hp | lia].
      + apply Z.div_lt_upper_bound; [exact Hp | lia]. }
  destruct Hm1 as (Hm1 & He1 & _).
  pose proof (round_nearest_even_bounds (shr_m mrs1) (loc_of_shr_record mrs1)) as Hr.
  set (m2 := round_nearest_even (shr_m mrs1) (loc_of_shr_record mrs1)) in *.
  assert (Hm2 : 2 ^ 52 <= m2 <= 2 ^ 53) by lia.
  pose proof (shr_fexp_spec m2 e1 loc_Exact ltac:(lia)) as H2.
  cbv zeta in H2.
  assert (Hdig : Zdigits2 m2 = 53 \/ (Zdigits2 m2 = 54 /\ m2 = 2 ^ 53)).
  { destruct m2 as [| q | q] eqn:Hq; [lia | | lia]. cbn [Zdigits2].
    destruct (Z.eq_dec (Zpos q) (2 ^ 53)) as [Heq | Hne].
    - right. split; [|exact Heq]. apply digits2_pos_unique; [|lia].
      rewrite Heq. change (54 - 1) with 53. lia.
    - left. apply digits2_pos_unique; [|lia]. change (53 - 1) with 52. lia. }
  destruct (shr_fexp 53 1024 m2 e1 loc_Exact) as [mrs2 e2].
  assert (Hfin : 0 < shr_m mrs2 /\ e2 <= 971).
  { destruct H2 as [(Hn & -> & ->) | (Hn & -> & ->)].
    - simpl. lia.
    - destruct Hdig as [Hdig | [Hdig Hval]]; rewrite Hdig in *; [lia|].
      assert (Z.max (54 + e1 - 53) (-1074) - e1 = 1) as -> by lia.
      rewrite Hval. split; [|lia]. vm_compute. reflexivity. }
  destruct Hfin as [Hpos He2].
  destruct (shr_m mrs2) as [| m | m]; [lia | | lia].
  change (1024 - 53) with 971.
  destruct (Z.leb_spec e2 971); [|lia]. eauto.
Qed.

Lemma ofInt_finite (z : Z) :
  0 < z < 2 ^ 64 -> exists m e, F64.ofInt z = S754_finite false m e.
Proof.
  intros [Hpos Hlt]. destruct z as [| p | p]; [lia | | lia].
  unfold F64.ofInt, F64.prec, F64.emax, binary_normalize, binary_round.
  pose proof (digits2_pos_bounds p) as Hp.
  set (d := Zpos (digits2_pos p)) in *.
  assert (Hd : 1 <= d <= 64).
  { split; [unfold d; lia|].
    destruct (Z.le_gt_cases d 64) as [|Hgt]; [assumption|].
    assert (2 ^ 64 <= 2 ^ (d - 1)) by (apply Z.pow_le_mono_r; lia). lia. }
  unfold fexp, emin. change (3 - 1024 - 53) with (-1074).
  rewrite Z.add_0_r.
  assert (Z.max (d - 53) (-1074) = d - 53) as -> by lia.
  unfold shl_align. rewrite Z.sub_0_r.
  destruct (d - 53) as [| k | k] eqn:Hk.
  - apply binary_round_aux_finite; fold d; lia.
  - apply binary_round_aux_finite; fold d; lia.
  - apply binary_round_aux_finite.
    + rewrite digits2_pos_iter_xO. rewrite Pos2Z.inj_add. fold d. lia.
    + lia.
Qed.

Lemma shr_fexp_nonneg (m e : Z) (l : location) :
  0 <= m -> 0 <= shr_m (fst (shr_fexp 53 1024 m e l)).
Proof.
  intros Hm. unfold shr_fexp, shr.
  destruct (fexp 53 1024 (Zdigits2 m + e) - e) as [| k | k]; simpl.
  - now rewrite shr_record_of_loc_m.
  - rewrite shift_iter_shr_m; rewrite shr_record_of_loc_m; [|exact Hm].
    apply Z.div_pos; [exact Hm | apply Z.pow_pos_nonneg; lia].
  - now rewrite shr_record_of_loc_m.
Qed.

(** Rounding a non-negative mantissa gives a zero, a finite number or an
    infinity. *)
Lemma binary_round_aux_not_nan (sx : bool) (mx ex : Z) (lx : location) :
  0 <= mx -> binary_round_aux 53 1024 sx mx ex lx <> S754_nan.
Proof.
  intros Hm. unfold binary_round_aux.
  pose proof (shr_fexp_nonneg mx ex lx Hm) as H1.
  destruct (shr_fexp 53 1024 mx ex lx) as [mrs1 e1]. simpl in H1.
  pose proof (round_nearest_even_bounds (shr_m mrs1) (loc_of_shr_record mrs1)) as Hr.
  set (m2 := round_nearest_even (shr_m mrs1) (loc_of_shr_record mrs1)) in *.
  pose proof (shr_fexp_nonneg m2 e1 loc_Exact ltac:(lia)) as H2.
  destruct (shr_fexp 53 1024 m2 e1 loc_Exact) as [mrs2 e2]. simpl in H2.
  destruct (shr_m mrs2) as [| q | q]; [discriminate | | lia].
  destruct (Z.leb e2 (1024 - 53)); discriminate.
Qed.

(** The quotient of a non-negative number by a finite non-zero one is
    not NaN. *)
Lemma div_not_nan (x : F64.float64) (my : positive) (ey : Z) :
  (x = S754_zero false \/ exists mx ex, x = S754_finite false mx ex) ->
  F64.div x (S754_finite false my ey) <> S754_nan.
Proof.
  intros [-> | (mx & ex & ->)]; [discriminate|].
  unfold F64.div, F64.prec, F64.emax, SFdiv, SFdiv_core_binary.
  set (s := ex - ey - _).
  set (m' := match s with Z0 => Zpos mx | Zpos _ => Z.shiftl (Zpos mx) s | Zneg _ => 0 end).
  assert (Hm' : 0 <= m').
  { unfold m'. destruct s; [lia | apply Z.shiftl_nonneg; lia | lia]. }
  pose proof (Z.div_pos m' (Zpos my) Hm' ltac:(lia)) as Hq.
  unfold Z.div in Hq. destruct (Z.div_eucl m' (Zpos my)) as [q r].
  now apply binary_round_aux_not_nan.
Qed.

End F64Facts.

(** ** The summary: unmodified rows and the accumulator *)

Module SummaryFacts.
Import diff summary U64Facts.

Lemma rowsUnmodified_mod acc :
  rowsUnmodified acc = U64.wrap (OldSize acc - Changes acc - Removes acc).
Proof.
  unfold rowsUnmodified, U64.sub.
  rewrite wrap_wrap.
  apply (sub_wrap_l (OldSize acc - Changes acc) (Removes acc)).
Qed.

(** C2: the unmodified-row count is the unsigned subtraction
    [OldSize - Changes - Removes] without clamping. On 64-bit counters it
    is that difference reduced modulo 2^64; when [Changes + Removes]
    exceeds [OldSize] the reduction adds a positive multiple of 2^64 (the
    value wraps), and when [Changes + Removes <= OldSize] it is the exact
    natural-number difference. *)
Theorem rowsUnmodified_unclamped (acc : DiffSummaryProgress) :
  wfProgress acc ->
  rowsUnmodified acc = (OldSize acc - Changes acc - Removes acc) mod 2 ^ 64
  /\ (Changes acc + Removes acc > OldSize acc ->
      exists k, 0 < k /\
        rowsUnmodified acc = OldSize acc - Changes acc - Removes acc + k * 2 ^ 64)
  /\ (Changes acc + Removes acc <= OldSize acc ->
      rowsUnmodified acc = OldSize acc - Changes acc - Removes acc
      /\ Z.to_nat (rowsUnmodified acc)
         = (Z.to_nat (OldSize acc) - Z.to_nat (Changes acc) - Z.to_nat (Removes acc))%nat).
Proof.
  intros (_ & HR & HC & _ & _ & HO).
  unfold U64.inRange, U64.modulus in *.
  rewrite rowsUnmodified_mod. unfold U64.wrap, U64.modulus.
  set (d := OldSize acc - Changes acc - Removes acc).
  split; [reflexivity|]. split.
  - intros Hgt. exists (- (d / 2 ^ 64)).
    pose proof (Z.div_mod d (2 ^ 64) ltac:(lia)) as Hdm.
    pose proof (Z.mod_pos_bound d (2 ^ 64) ltac:(lia)) as Hb.
    split; [|lia].
    assert (d < 0) by (unfold d; lia).
    assert (d / 2 ^ 64 < 0) by (apply Z.div_lt_upper_bound; lia).
    lia.
  - intros Hle.
    assert (Hd : d mod 2 ^ 64 = d) by (apply Z.mod_small; unfold d; lia).
    rewrite Hd. split; [reflexivity|]. unfold d. lia.
Qed.

Lemma rowsUnmodified_unclamped_witness :
  let acc := mkProgress 4 2 3 5 9 7 in
  wfProgress acc /\ Changes acc + Removes acc <= OldSize acc /\
  rowsUnmodified acc = 2 /\ Z.to_nat (rowsUnmodified acc) = (7 - 3 - 2)%nat.
Proof.
  intros acc.
  assert (Hwf : wfProgress acc).
  { unfold wfProgress, U64.inRange, U64.modulus; simpl; lia. }
  assert (Hle : Changes acc + Removes acc <= OldSize acc) by (simpl; lia).
  split; [exact Hwf|]. split; [exact Hle|].
  destruct (rowsUnmodified_unclamped acc Hwf) as (_ & _ & Hexact).
  exact (Hexact Hle).
Defined.

Lemma merge_field f acc p :
  f ∈ fields -> f (merge acc p) = U64.add (f acc) (f p).
Proof.
  unfold fields. rewrite !elem_of_cons, elem_of_nil.
  intros [-> | [-> | [-> | [-> | [-> | [-> | []]]]]]]; reflexivity.
Qed.

Lemma rangeLoop_field f ch st :
  f ∈ fields -> drained ch -> U64.inRange (f (acc st)) ->
  f (acc (rangeLoop ch st)) = U64.wrap (f (acc st) + total f ch).
Proof.
  intros Hf Hdr. revert st.
  induction Hdr as [| [p flag] rest Hflag _ IH]; intros st Hrange.
  - simpl. rewrite Z.add_0_r. symmetry. now apply wrap_small.
  - simpl in Hflag. subst flag. cbn [rangeLoop total foldr fst].
    rewrite IH; cbn [acc].
    + rewrite (merge_field f _ _ Hf). unfold U64.add.
      rewrite wrap_add_l. f_equal. fold (total f rest). lia.
    + rewrite (merge_field f _ _ Hf). apply wrap_inRange.
Qed.

Lemma total_nonneg f ch :
  f ∈ fields -> Forall (fun d => wfProgress (fst d)) ch -> 0 <= total f ch.
Proof.
  intros Hf Hwf. induction Hwf as [| d rest Hd _ IH]; simpl; [lia|].
  assert (0 <= f (fst d)); [|lia].
  destruct Hd as (H1 & H2 & H3 & H4 & H5 & H6).
  unfold U64.inRange in *.
  unfold fields in Hf. rewrite !elem_of_cons, elem_of_nil in Hf.
  destruct Hf as [-> | [-> | [-> | [-> | [-> | [-> | []]]]]]]; lia.
Qed.

(** C3: when the loop of [diffSummary] leaves through the closing of the
    channel, the accumulator holds, in each of its six fields, the sum of
    that field over all delivered reports, each report counted once; the
    additions are those of [uint64], so the sum is taken modulo 2^64 and is
    the exact sum whenever that fits in 64 bits. *)
Theorem diffSummary_accumulates (ch : list delivery) :
  drained ch ->
  Forall (fun d => wfProgress (fst d)) ch ->
  Forall (fun f =>
            f (acc (rangeLoop ch initLoop)) = U64.wrap (total f ch)
            /\ (total f ch < 2 ^ 64 -> f (acc (rangeLoop ch initLoop)) = total f ch))
         fields.
Proof.
  intros Hdr Hwf. apply Forall_forall. intros f Hf.
  assert (Hz : f (acc initLoop) = 0).
  { unfold fields in Hf. rewrite !elem_of_cons, elem_of_nil in Hf.
    destruct Hf as [-> | [-> | [-> | [-> | [-> | [-> | []]]]]]]; reflexivity. }
  assert (Heq : f (acc (rangeLoop ch initLoop)) = U64.wrap (total f ch)).
  { rewrite (rangeLoop_field f ch initLoop Hf Hdr).
    - now rewrite Hz.
    - rewrite Hz. unfold U64.inRange, U64.modulus. lia. }
  split; [exact Heq|].
  intros Hfit. rewrite Heq. apply wrap_small.
  pose proof (total_nonneg f ch Hf Hwf).
  unfold U64.inRange, U64.modulus. lia.
Qed.

Lemma diffSummary_accumulates_witness :
  let ch := [(mkProgress 1 0 2 3 10 9, false); (mkProgress 0 4 1 1 5 6, false)] in
  drained ch /\
  Forall (fun f => f (acc (rangeLoop ch initLoop)) = U64.wrap (total f ch)
                   /\ (total f ch < 2 ^ 64 ->
                       f (acc (rangeLoop ch initLoop)) = total f ch))
         fields.
Proof.
  intros ch.
  assert (Hdr : drained ch) by (repeat constructor).
  assert (Hwf : Forall (fun d => wfProgress (fst d)) ch).
  { repeat constructor; unfold U64.inRange, U64.modulus; simpl; lia. }
  split; [exact Hdr|].
  exact (diffSummary_accumulates ch Hdr Hwf).
Defined.

Lemma ofInt_zero : F64.ofInt 0 = F64.zero.
Proof. reflexivity. Qed.

Lemma mul_inRange a b : 0 <= U64.mul a b < 2 ^ 64.
Proof. apply wrap_inRange. Qed.

(** [safePercent] with a zero denominator: 0 for a zero numerator, else
    the unguarded quotient, +Inf (NaN in the corner where [100*num] wraps
    to 0). *)
Lemma safePercent_zero_denominator (num : Z) :
  safePercent num 0 =
    if Z.eqb num 0 then F64.zero
    else if Z.eqb (U64.mul 100 num) 0 then F64.NaN else F64.posInf.
Proof.
  unfold safePercent. destruct (Z.eqb num 0); [reflexivity|].
  destruct (Z.eqb_spec (U64.mul 100 num) 0) as [-> | Hne]; [reflexivity|].
  pose proof (mul_inRange 100 num) as Hr.
  destruct (F64Facts.ofInt_finite (U64.mul 100 num)) as (m & e & ->); [lia|].
  reflexivity.
Qed.

Lemma safePercent_zero_numerator (dom : Z) : safePercent 0 dom = F64.zero.
Proof. reflexivity. Qed.

(** The cell-change percentage has no guard: with no old rows it is never
    0, it is NaN for no cell changes and +Inf otherwise. *)
Lemma percentCellsChanged_no_old_rows (acc : DiffSummaryProgress) (colLen : Z) :
  OldSize acc = 0 -> 0 <= colLen < 2 ^ 64 ->
  percentCellsChanged acc colLen =
    if Z.eqb (U64.mul 100 (CellChanges acc)) 0 then F64.NaN else F64.posInf.
Proof.
  intros Hold Hcol. unfold percentCellsChanged. rewrite Hold.
  assert (Hden : F64.mul (F64.ofInt 0) (F64.ofInt colLen) = F64.zero).
  { destruct (Z.eq_dec colLen 0) as [-> | Hne]; [reflexivity|].
    destruct (F64Facts.ofInt_finite colLen) as (m & e & ->); [lia | reflexivity]. }
  rewrite Hden.
  destruct (Z.eqb_spec (U64.mul 100 (CellChanges acc)) 0) as [-> | Hne]; [reflexivity|].
  pose proof (mul_inRange 100 (CellChanges acc)) as Hr.
  destruct (F64Facts.ofInt_finite (U64.mul 100 (CellChanges acc))) as (m & e & ->); [lia|].
  reflexivity.
Qed.

(** C1, as the code has it: each of the four row percentages of
    [formatSummary] (unmodified, adds, removes, changes over [OldSize]) is
    0 whenever its numerator is 0, whatever the denominator, so 0/0 never
    shows as NaN; with [OldSize] 0 and a numerator whose hundredfold is
    not 0 as a [uint64], it is +Inf, as the comment in [safePercent]
    says. *)
Theorem formatSummary_row_percentages (acc : DiffSummaryProgress) (colLen : Z) :
  exists pUnmodified pAdds pRemoves pChanges pCells,
    percentages (formatSummary acc colLen)
      = [pUnmodified; pAdds; pRemoves; pChanges; pCells]
    /\ (rowsUnmodified acc = 0 -> pUnmodified = F64.zero)
    /\ (Adds acc = 0 -> pAdds = F64.zero)
    /\ (Removes acc = 0 -> pRemoves = F64.zero)
    /\ (Changes acc = 0 -> pChanges = F64.zero)
    /\ (OldSize acc = 0 ->
        (U64.mul 100 (rowsUnmodified acc) <> 0 -> pUnmodified = F64.posInf)
        /\ (U64.mul 100 (Adds acc) <> 0 -> pAdds = F64.posInf)
        /\ (U64.mul 100 (Removes acc) <> 0 -> pRemoves = F64.posInf)
        /\ (U64.mul 100 (Changes acc) <> 0 -> pChanges = F64.posInf)).
Proof.
  do 5 eexists. split; [reflexivity|].
  assert (Hz : forall num, num = 0 -> safePercent num (OldSize acc) = F64.zero).
  { intros num ->. apply safePercent_zero_numerator. }
  assert (Hinf : forall num, OldSize acc = 0 -> U64.mul 100 num <> 0 ->
                             safePercent num (OldSize acc) = F64.posInf).
  { intros num -> Hne. rewrite safePercent_zero_denominator.
    destruct (Z.eqb_spec num 0) as [-> | _]; [contradiction Hne; reflexivity|].
    destruct (Z.eqb_spec (U64.mul 100 num) 0); [contradiction | reflexivity]. }
  repeat split; auto.
Qed.

Lemma formatSummary_row_percentages_witness :
  let acc := mkProgress 3 0 0 0 3 0 in
  exists pUnmodified pAdds pRemoves pChanges pCells,
    percentages (formatSummary acc 2)
      = [pUnmodified; pAdds; pRemoves; pChanges; pCells]
    /\ pUnmodified = F64.zero /\ pAdds = F64.posInf
    /\ pRemoves = F64.zero /\ pChanges = F64.zero.
Proof.
  intros acc.
  destruct (formatSummary_row_percentages acc 2)
    as (pu & pa & pr & pc & pcell & Heq & Hu & _ & Hr & Hc & Hinf).
  exists pu, pa, pr, pc, pcell. split; [exact Heq|].
  destruct (Hinf eq_refl) as (_ & Ha & _).
  split; [apply Hu; reflexivity|]. split; [apply Ha; discriminate|].
  split; [apply Hr; reflexivity | apply Hc; reflexivity].
Defined.

(** C1, as the spec words it, fails: for a table of three added rows the
    denominator [OldSize] is 0, [diffSummary] formats the totals, and the
    percentage of added rows is +Inf and that of changed cells NaN. *)
Lemma formatSummary_zero_denominator :
  let acc := mkProgress 3 0 0 0 3 0 in
  OldSize acc = 0
  /\ percentages (formatSummary acc 2)
     = [F64.zero; F64.posInf; F64.zero; F64.zero; F64.NaN]
  /\ percentages (snd (diffSummary [(acc, false)] None 2))
     = [F64.zero; F64.posInf; F64.zero; F64.zero; F64.NaN]
  /\ ~ Forall (fun p => p = F64.zero) (percentages (formatSummary acc 2)).
Proof.
  intros acc. split; [reflexivity|]. split; [reflexivity|]. split; [reflexivity|].
  intros H. apply Forall_cons in H as [_ H]. apply Forall_cons in H as [H _].
  vm_compute in H. discriminate.
Qed.

(** *** Further properties of the summary *)

Lemma merged_drained (ch : list delivery) : drained (merged ch).
Proof.
  induction ch as [| [p flag] rest IH]; simpl; [constructor|].
  destruct flag; constructor; [reflexivity | exact IH].
Qed.

Lemma merged_prefix (ch : list delivery) : merged ch `prefix_of` ch.
Proof.
  induction ch as [| [p flag] rest IH]; simpl; [reflexivity|].
  destruct flag; [apply prefix_nil | now apply prefix_cons].
Qed.

Lemma rangeLoop_merged (ch : list delivery) (st : loopState) :
  rangeLoop ch st = rangeLoop (merged ch) st.
Proof.
  revert st. induction ch as [| [p flag] rest IH]; intros st; simpl; [reflexivity|].
  destruct flag; simpl; [reflexivity | apply IH].
Qed.

Lemma initLoop_field f : f ∈ fields -> f (acc initLoop) = 0.
Proof.
  unfold fields. rewrite !elem_of_cons, elem_of_nil.
  intros [-> | [-> | [-> | [-> | [-> | [-> | []]]]]]]; reflexivity.
Qed.

Lemma drained_field f (ch : list delivery) :
  f ∈ fields -> drained ch -> f (acc (rangeLoop ch initLoop)) = U64.wrap (total f ch).
Proof.
  intros Hf Hdr. rewrite (rangeLoop_field f ch initLoop Hf Hdr).
  - now rewrite (initLoop_field f Hf).
  - rewrite (initLoop_field f Hf). unfold U64.inRange, U64.modulus. lia.
Qed.

(** When the loop breaks on [ae.IsSet()], the report of that iteration
    and all later ones are left out: for every sequence of deliveries the
    accumulator holds the [uint64] sums over the reports received before
    the first iteration that sees the error set. *)
Theorem rangeLoop_sums_before_break (ch : list delivery) :
  merged ch `prefix_of` ch
  /\ drained (merged ch)
  /\ (drained ch -> merged ch = ch)
  /\ Forall (fun f => f (acc (rangeLoop ch initLoop)) = U64.wrap (total f (merged ch)))
            fields.
Proof.
  split; [apply merged_prefix|]. split; [apply merged_drained|]. split.
  - intros Hdr. induction Hdr as [| [p flag] rest Hflag _ IH]; simpl; [reflexivity|].
    simpl in Hflag. subst flag. now rewrite IH.
  - apply Forall_forall. intros f Hf. rewrite rangeLoop_merged.
    apply drained_field; [exact Hf | apply merged_drained].
Qed.

Lemma total_Permutation f (ch ch' : list delivery) :
  ch ≡ₚ ch' -> total f ch = total f ch'.
Proof.
  induction 1 as [| d l l' _ IH | d d' l | l l' l'' _ IH1 _ IH2]; simpl.
  - reflexivity.
  - fold (total f l) (total f l'). lia.
  - lia.
  - lia.
Qed.

Lemma progress_eq (a b : DiffSummaryProgress) :
  Forall (fun f => f a = f b) fields -> a = b.
Proof.
  unfold fields. intros H.
  repeat (apply Forall_cons in H as [? H]).
  destruct a, b. simpl in *. congruence.
Qed.

(** The order in which the partial reports arrive does not matter: two
    drained channels that deliver the same reports in different orders
    leave the same accumulator. *)
Theorem rangeLoop_order_independent (ch ch' : list delivery) :
  drained ch -> ch ≡ₚ ch' ->
  acc (rangeLoop ch initLoop) = acc (rangeLoop ch' initLoop).
Proof.
  intros Hdr Hperm.
  assert (Hdr' : drained ch').
  { unfold drained in *. now rewrite <- Hperm. }
  apply progress_eq. apply Forall_forall. intros f Hf.
  rewrite (drained_field f ch Hf Hdr), (drained_field f ch' Hf Hdr').
  now rewrite (total_Permutation f ch ch' Hperm).
Qed.

Lemma rangeLoop_order_independent_witness :
  let a := (mkProgress 1 0 2 3 10 9, false) in
  let b := (mkProgress 0 4 1 1 5 6, false) in
  let c := (mkProgress 7 7 7 7 7 7, false) in
  acc (rangeLoop [a; b; c] initLoop) = acc (rangeLoop [c; a; b] initLoop).
Proof.
  intros a b c. apply rangeLoop_order_independent.
  - repeat constructor.
  - change [c; a; b] with ([c] ++ [a; b]). change [a; b; c] with ([a; b] ++ [c]).
    apply Permutation_app_comm.
Defined.

Lemma rangeLoop_printed_status (ch : list delivery) (st : loopState) :
  Forall (fun o => exists a, o = Status a) (printed st) ->
  Forall (fun o => exists a, o = Status a) (printed (rangeLoop ch st)).
Proof.
  revert st. induction ch as [| [p flag] rest IH]; intros st Hst; simpl; [exact Hst|].
  destruct flag; [exact Hst|]. apply IH. simpl.
  destruct (Z.eqb _ 0); [|exact Hst].
  apply Forall_app. split; [exact Hst|]. repeat constructor. eauto.
Qed.

Lemma percentages_status (out : list cliOut) :
  Forall (fun o => exists a, o = Status a) out ->
  percentages out = [] /\ NoDataChanges ∉ out.
Proof.
  induction 1 as [| o rest [a ->] _ [IH1 IH2]]; simpl.
  - split; [reflexivity | apply not_elem_of_nil].
  - split; [exact IH1|]. rewrite elem_of_cons. intros [H | H]; [discriminate | tauto].
Qed.

(** When the producer ended with an error, [diffSummary] returns that
    error and prints neither statistics nor the no-changes notice,
    whatever was delivered before. *)
Theorem diffSummary_error_prints_no_statistics
    (ch : list delivery) (e : string) (colLen : Z) :
  fst (diffSummary ch (Some e) colLen) = Some e
  /\ percentages (snd (diffSummary ch (Some e) colLen)) = []
  /\ NoDataChanges ∉ snd (diffSummary ch (Some e) colLen).
Proof.
  unfold diffSummary. simpl. split; [reflexivity|].
  pose proof (rangeLoop_printed_status ch initLoop (List.Forall_nil _)) as Hst.
  apply percentages_status in Hst as [Hp Hn].
  unfold percentages in *. rewrite omap_app, Hp. simpl. split; [reflexivity|].
  rewrite elem_of_app, elem_of_cons, elem_of_nil.
  intros [H | [H | []]]; [tauto | discriminate].
Qed.

Lemma ofInt_u64 (z : Z) :
  0 <= z < 2 ^ 64 ->
  F64.ofInt z = S754_zero false \/ exists m e, F64.ofInt z = S754_finite false m e.
Proof.
  intros Hz. destruct (Z.eq_dec z 0) as [-> | Hne]; [now left | right].
  apply F64Facts.ofInt_finite. lia.
Qed.

Lemma safePercent_not_nan (num dom : Z) :
  0 < dom < 2 ^ 64 -> safePercent num dom <> F64.NaN.
Proof.
  intros Hdom. unfold safePercent. destruct (Z.eqb num 0); [discriminate|].
  destruct (F64Facts.ofInt_finite dom Hdom) as (my & ey & ->).
  apply F64Facts.div_not_nan. apply ofInt_u64. apply mul_inRange.
Qed.

(** With old rows present, no row percentage of [formatSummary] is NaN:
    the quotient is taken over a non-zero [OldSize]. *)
Theorem formatSummary_row_percentages_not_nan (acc : DiffSummaryProgress) (colLen : Z) :
  0 < OldSize acc < 2 ^ 64 ->
  exists pUnmodified pAdds pRemoves pChanges pCells,
    percentages (formatSummary acc colLen)
      = [pUnmodified; pAdds; pRemoves; pChanges; pCells]
    /\ pUnmodified <> F64.NaN /\ pAdds <> F64.NaN
    /\ pRemoves <> F64.NaN /\ pChanges <> F64.NaN.
Proof.
  intros Hold. do 5 eexists. split; [reflexivity|].
  repeat split; now apply safePercent_not_nan.
Qed.

Lemma formatSummary_row_percentages_not_nan_witness :
  exists pUnmodified pAdds pRemoves pChanges pCells,
    percentages (formatSummary (mkProgress 1 1 1 2 3 3) 2)
      = [pUnmodified; pAdds; pRemoves; pChanges; pCells]
    /\ pUnmodified <> F64.NaN /\ pAdds <> F64.NaN
    /\ pRemoves <> F64.NaN /\ pChanges <> F64.NaN.
Proof.
  apply formatSummary_row_percentages_not_nan. simpl. lia.
Defined.

(** The count handed to the formatter is [int64(n)]: when [Changes +
    Removes] exceeds [OldSize] by [k] (at most 2^63), the first line of
    the summary shows [-k] unmodified rows, in the plural. *)
Theorem formatSummary_negative_unmodified (acc : DiffSummaryProgress) (colLen : Z) :
  wfProgress acc ->
  OldSize acc < Changes acc + Removes acc ->
  Changes acc + Removes acc - OldSize acc <= 2 ^ 63 ->
  exists pct rest,
    formatSummary acc colLen
      = StatLine (OldSize acc - Changes acc - Removes acc, "Rows Unmodified") pct :: rest.
Proof.
  intros (_ & HR & HC & _ & _ & HO) Hlt Hk.
  unfold U64.inRange, U64.modulus in *.
  unfold formatSummary, pluralize. do 2 eexists. f_equal. f_equal.
  assert (Hrows : rowsUnmodified acc
                  = OldSize acc - Changes acc - Removes acc + 2 ^ 64).
  { rewrite rowsUnmodified_mod. unfold U64.wrap, U64.modulus.
    symmetry. apply Z.mod_unique with (-1); lia. }
  rewrite Hrows. f_equal.
  - unfold U64.toInt64. rewrite wrap_small by (unfold U64.inRange, U64.modulus; lia).
    destruct (Z.ltb_spec (OldSize acc - Changes acc - Removes acc + 2 ^ 64) (2 ^ 63));
      unfold U64.modulus; lia.
  - destruct (Z.eqb_spec (OldSize acc - Changes acc - Removes acc + 2 ^ 64) 1);
      [lia | reflexivity].
Qed.

Lemma formatSummary_negative_unmodified_witness :
  exists pct rest,
    formatSummary (mkProgress 0 2 3 0 0 4) 1
      = StatLine (4 - 3 - 2, "Rows Unmodified") pct :: rest.
Proof.
  apply (formatSummary_negative_unmodified (mkProgress 0 2 3 0 0 4) 1).
  - unfold wfProgress, U64.inRange, U64.modulus; simpl; lia.
  - simpl; lia.
  - simpl; lia.
Defined.

Lemma status_step (c : Z) :
  0 <= c ->
  (c + 1 + 9999) / 10000 - (c + 9999) / 10000
  = if Z.eqb (Z.rem c 10000) 0 then 1 else 0.
Proof.
  intros Hc. rewrite Z.rem_mod_nonneg by lia.
  destruct (Z.eqb_spec (c mod 10000) 0);
    Z.to_euclidean_division_equations; lia.
Qed.

Lemma statusLines_app (a b : list cliOut) :
  statusLines (a ++ b) = (statusLines a + statusLines b)%nat.
Proof. unfold statusLines. now rewrite List.filter_app, length_app. Qed.

Lemma rangeLoop_statusLines (ch : list delivery) (st : loopState) :
  drained ch -> 0 <= count st ->
  Z.of_nat (statusLines (printed (rangeLoop ch st)))
  = Z.of_nat (statusLines (printed st))
    + ((count st + Z.of_nat (length ch) + 9999) / 10000 - (count st + 9999) / 10000).
Proof.
  intros Hdr. revert st.
  induction Hdr as [| [p flag] rest Hflag _ IH]; intros st Hc.
  - simpl. rewrite Z.add_0_r. lia.
  - simpl in Hflag. subst flag. cbn [rangeLoop]. rewrite IH by (simpl; lia).
    unfold delivery in *.
    cbn [count printed]. pose proof (status_step (count st) Hc) as Hstep.
    match goal with
    | |- context [(?a + Z.of_nat (length (?d :: ?l)) + 9999) / 10000] =>
        replace (a + Z.of_nat (length (d :: l)) + 9999)
          with (a + 1 + Z.of_nat (length l) + 9999)
          by (rewrite length_cons; lia)
    end.
    destruct (Z.eqb (Z.rem (count st) 10000) 0).
    + rewrite statusLines_app. cbn [statusLines List.filter length]. lia.
    + lia.
Qed.

(** Progress is written for the 1st, the 10001st, the 20001st ... report:
    a drained channel of [n] reports leaves [ceil(n / 10000)] progress
    lines in the output of [diffSummary]. *)
Theorem diffSummary_progress_lines (ch : list delivery) (err : option string) (colLen : Z) :
  drained ch ->
  Z.of_nat (statusLines (snd (diffSummary ch err colLen)))
  = (Z.of_nat (length ch) + 9999) / 10000.
Proof.
  intros Hdr.
  pose proof (rangeLoop_statusLines ch initLoop Hdr ltac:(simpl; lia)) as H.
  cbn [count printed initLoop] in H.
  change ((0 + 9999) / 10000) with 0 in H. rewrite Z.sub_0_r in H.
  change (statusLines []) with 0%nat in H.
  replace (0 + Z.of_nat (length ch) + 9999) with (Z.of_nat (length ch) + 9999) in H by lia.
  unfold diffSummary.
  destruct err as [e|]; [|destruct (_ || _)]; cbn [snd];
    rewrite ?statusLines_app; cbn [statusLines List.filter formatSummary length];
    lia.
Qed.

Lemma diffSummary_progress_lines_witness :
  let ch := [(mkProgress 1 0 2 3 10 9, false); (mkProgress 0 4 1 1 5 6, false)] in
  Z.of_nat (statusLines (snd (diffSummary ch None 3))) = (2 + 9999) / 10000.
Proof.
  intros ch. apply (diffSummary_progress_lines ch None 3). repeat constructor.
Defined.

Lemma total_zero f (ch : list delivery) :
  f ∈ fields -> Forall (fun d => wfProgress (fst d)) ch ->
  (total f ch = 0 <-> Forall (fun d => f (fst d) = 0) ch).
Proof.
  intros Hf Hwf. induction Hwf as [| d rest Hd Hrest IH]; simpl.
  - split; [constructor | reflexivity].
  - fold (total f rest).
    pose proof (total_nonneg f rest Hf Hrest) as Hnn.
    pose proof (total_nonneg f [d] Hf ltac:(constructor; [exact Hd | constructor])) as Hd0.
    simpl in Hd0. split.
    + intros Hsum. constructor; [lia | apply IH; lia].
    + intros Hall. apply Forall_cons in Hall as [H0 Hall]. apply IH in Hall. lia.
Qed.

(** Without an error, [diffSummary] writes the no-changes notice instead
    of the statistics exactly when both accumulated sizes are 0: for a
    drained channel whose totals fit in 64 bits, exactly when every
    delivered report has [NewSize] 0 and [OldSize] 0. So the statistics,
    and with them a zero denominator, are only printed for a table with
    rows on at least one side. *)
Theorem diffSummary_no_data_changes (ch : list delivery) (colLen : Z) :
  drained ch ->
  Forall (fun d => wfProgress (fst d)) ch ->
  total NewSize ch < 2 ^ 64 -> total OldSize ch < 2 ^ 64 ->
  (NoDataChanges ∈ snd (diffSummary ch None colLen) <->
   Forall (fun d => NewSize (fst d) = 0 /\ OldSize (fst d) = 0) ch)
  /\ (percentages (snd (diffSummary ch None colLen)) = [] <->
      Forall (fun d => NewSize (fst d) = 0 /\ OldSize (fst d) = 0) ch).
Proof.
  intros Hdr Hwf HfitN HfitO.
  assert (HN : NewSize ∈ fields) by (unfold fields; rewrite !elem_of_cons; tauto).
  assert (HO : OldSize ∈ fields) by (unfold fields; rewrite !elem_of_cons; tauto).
  pose proof (total_nonneg NewSize ch HN Hwf) as HnnN.
  pose proof (total_nonneg OldSize ch HO Hwf) as HnnO.
  assert (HaccN : NewSize (acc (rangeLoop ch initLoop)) = total NewSize ch).
  { rewrite (drained_field NewSize ch HN Hdr). apply wrap_small.
    unfold U64.inRange, U64.modulus. lia. }
  assert (HaccO : OldSize (acc (rangeLoop ch initLoop)) = total OldSize ch).
  { rewrite (drained_field OldSize ch HO Hdr). apply wrap_small.
    unfold U64.inRange, U64.modulus. lia. }
  assert (Hzero : Forall (fun d => NewSize (fst d) = 0 /\ OldSize (fst d) = 0) ch
                  <-> total NewSize ch = 0 /\ total OldSize ch = 0).
  { rewrite (total_zero NewSize ch HN Hwf), (total_zero OldSize ch HO Hwf).
    rewrite !Forall_forall. split.
    - intros H. split; intros d Hd; apply H; exact Hd.
    - intros [H1 H2] d Hd. split; [now apply H1 | now apply H2]. }
  pose proof (rangeLoop_printed_status ch initLoop (List.Forall_nil _)) as Hst.
  apply percentages_status in Hst as [Hp Hn].
  unfold diffSummary. cbn zeta. rewrite HaccN, HaccO.
  destruct (Z.ltb_spec 0 (total NewSize ch)) as [HposN | HzN];
    [|destruct (Z.ltb_spec 0 (total OldSize ch)) as [HposO | HzO]];
    cbn [orb snd]; unfold percentages, formatSummary in *;
    rewrite !omap_app, Hp; cbn [omap app list_omap];
    rewrite !elem_of_app, !elem_of_cons, elem_of_nil.
  - split; (split; [|intros H; apply Hzero in H; lia]).
    + intros [[H | [H | H]] | H]; [contradiction | discriminate | contradiction |].
      repeat (destruct H as [H | H]; [discriminate|]). contradiction.
    + discriminate.
  - split; (split; [|intros H; apply Hzero in H; lia]).
    + intros [[H | [H | H]] | H]; [contradiction | discriminate | contradiction |].
      repeat (destruct H as [H | H]; [discriminate|]). contradiction.
    + discriminate.
  - split; (split; [intros _; apply Hzero; lia|]).
    + intros _. right. left. reflexivity.
    + reflexivity.
Qed.

Lemma diffSummary_no_data_changes_witness :
  let ch := [(mkProgress 0 0 0 0 0 0, false); (mkProgress 0 0 0 0 0 0, false)] in
  NoDataChanges ∈ snd (diffSummary ch None 3)
  /\ percentages (snd (diffSummary ch None 3)) = [].
Proof.
  intros ch.
  assert (Hall : Forall (fun d : delivery => NewSize (fst d) = 0 /\ OldSize (fst d) = 0) ch)
    by (repeat constructor).
  destruct (diffSummary_no_data_changes ch 3) as [H1 H2].
  - repeat constructor.
  - repeat constructor; unfold U64.inRange, U64.modulus; simpl; lia.
  - simpl; lia.
  - simpl; lia.
  - split; [now apply H1 | now apply H2].
Defined.

Lemma percentCellsChanged_no_old_rows_witness :
  percentCellsChanged (mkProgress 3 0 0 0 3 0) 2 = F64.NaN.
Proof.
  apply (percentCellsChanged_no_old_rows (mkProgress 3 0 0 0 3 0) 2).
  - reflexivity.
  - lia.
Defined.

End SummaryFacts.

(** ** Rows: validity and equality *)

Module RowFacts.
Import schema row.

Section Facts.
Context {V TypeInfo : Type}.
Variable Equals : V -> V -> bool.

Implicit Types (r : gmap Z V) (sch : Schema V TypeInfo).
Implicit Types (cols : ColCollection V TypeInfo) (cnsts : list (ColConstraint V)).

Lemma GetColVal_fst r tag : fst (GetColVal r tag) = r !! tag.
Proof. unfold GetColVal. now destruct (r !! tag). Qed.

Lemma hitsViolation_false cnsts (val : option V) :
  hitsViolation cnsts val = false <->
  forall cnst, cnst ∈ cnsts -> SatisfiesConstraint cnst val = true.
Proof.
  induction cnsts as [| c rest IH]; simpl.
  - split; [intros _ cnst Hin; inversion Hin | reflexivity].
  - destruct (SatisfiesConstraint c val) eqn:Hc; simpl.
    + rewrite IH. split.
      * intros H cnst Hin. apply elem_of_cons in Hin as [-> | Hin]; auto.
      * intros H cnst Hin. apply H. now right.
    + split; [discriminate|]. intros H.
      specialize (H c (list_elem_of_here _ _)). congruence.
Qed.

Lemma no_constraints (col : Column V TypeInfo) :
  Nat.ltb 0 (length (Constraints col)) = false -> Constraints col = [].
Proof. destruct (Constraints col); [reflexivity | discriminate]. Qed.

(** The callbacks handed to [Iter] by [IsValid] and [GetInvalidCol]. *)
Local Abbreviation validCb r :=
  (fun tag col (valid : bool) =>
     if Nat.ltb 0 (length (Constraints col)) then
       if hitsViolation (Constraints col) (fst (GetColVal r tag)) then (false, true)
       else (valid, false)
     else (valid, false)).

Local Abbreviation badColCb r :=
  (fun tag col (badCol : option (Column V TypeInfo)) =>
     if Nat.ltb 0 (length (Constraints col)) then
       if hitsViolation (Constraints col) (fst (GetColVal r tag)) then (Some col, true)
       else (badCol, false)
     else (badCol, false)).

Lemma Iter_valid r cols (valid : bool) :
  Iter cols (validCb r) valid = true <->
  valid = true /\
  forall col cnst, col ∈ cols -> cnst ∈ Constraints col ->
                   SatisfiesConstraint cnst (r !! Tag col) = true.
Proof.
  revert valid. induction cols as [| c rest IH]; intros valid; simpl.
  - split; [intros ->; split; [reflexivity|]; intros ? ? Hin; inversion Hin | tauto].
  - destruct (Nat.ltb 0 (length (Constraints c))) eqn:Hlen.
    + destruct (hitsViolation (Constraints c) (fst (GetColVal r (Tag c)))) eqn:Hv.
      * split; [discriminate|]. intros [_ H].
        assert (Hno : hitsViolation (Constraints c) (fst (GetColVal r (Tag c))) = false).
        { apply hitsViolation_false. intros cnst Hin. rewrite GetColVal_fst.
          apply H; [left | exact Hin]. }
        congruence.
      * rewrite IH. rewrite hitsViolation_false in Hv.
        setoid_rewrite GetColVal_fst in Hv.
        split; intros [Hval H]; (split; [exact Hval|]); intros col cnst Hcol Hcn.
        -- apply elem_of_cons in Hcol as [-> | Hcol]; eauto.
        -- apply H; [now right | exact Hcn].
    + rewrite IH. apply no_constraints in Hlen.
      split; intros [Hval H]; (split; [exact Hval|]); intros col cnst Hcol Hcn.
      * apply elem_of_cons in Hcol as [-> | Hcol]; eauto.
        rewrite Hlen in Hcn. inversion Hcn.
      * apply H; [now right | exact Hcn].
Qed.

Lemma IsValid_all_constraints r sch :
  IsValid r sch = true <->
  forall col cnst, col ∈ GetAllCols sch -> cnst ∈ Constraints col ->
                   SatisfiesConstraint cnst (r !! Tag col) = true.
Proof. unfold IsValid. rewrite Iter_valid. tauto. Qed.

(** C5, as the code has it: [IsValid] returns true iff, for every column
    of the schema, every constraint of the column is satisfied by the
    row's value at the column's tag, an absent value being checked as nil.
    So a valid row's present tags all satisfy their constraints, and when
    every constraint of the schema accepts nil the two notions coincide. *)
Theorem IsValid_checks_every_column r sch :
  (IsValid r sch = true <->
   forall col cnst, col ∈ GetAllCols sch -> cnst ∈ Constraints col ->
                    SatisfiesConstraint cnst (r !! Tag col) = true)
  /\ (IsValid r sch = true -> presentTagsSatisfy r sch)
  /\ ((forall col cnst, col ∈ GetAllCols sch -> cnst ∈ Constraints col ->
                        SatisfiesConstraint cnst None = true) ->
      (IsValid r sch = true <-> presentTagsSatisfy r sch)).
Proof.
  pose proof (IsValid_all_constraints r sch) as Hiff.
  assert (Hsound : IsValid r sch = true -> presentTagsSatisfy r sch).
  { intros Hv col v cnst Hcol Hlook Hcn. rewrite <- Hlook. now apply Hiff. }
  split; [exact Hiff|]. split; [exact Hsound|].
  intros Hnil. split; [exact Hsound|].
  intros Hpres. apply Hiff. intros col cnst Hcol Hcn.
  destruct (r !! Tag col) as [v|] eqn:Hlook.
  - now apply (Hpres col v cnst).
  - now apply Hnil with col.
Qed.

Lemma Iter_agree r cols (valid : bool) (badCol : option (Column V TypeInfo)) :
  (valid = true <-> badCol = None) ->
  (Iter cols (validCb r) valid = true <-> Iter cols (badColCb r) badCol = None).
Proof.
  revert valid badCol. induction cols as [| c rest IH]; intros valid badCol Hinv; simpl.
  - exact Hinv.
  - destruct (Nat.ltb 0 (length (Constraints c))).
    + destruct (hitsViolation (Constraints c) (fst (GetColVal r (Tag c)))).
      * split; discriminate.
      * now apply IH.
    + now apply IH.
Qed.

(** C9: the boolean validity check and the first-invalid-column finder
    agree: [IsValid r sch] is true iff [GetInvalidCol r sch] is nil. *)
Theorem IsValid_iff_no_invalid_col r sch :
  IsValid r sch = true <-> GetInvalidCol r sch = None.
Proof. unfold IsValid, GetInvalidCol. now apply Iter_agree. Qed.

Lemma NilSafeEqCheck_spec (o1 o2 : option V) :
  valutil.NilSafeEqCheck Equals o1 o2 = true <-> nullSafeEqual Equals o1 o2.
Proof.
  destruct o1, o2; simpl; try tauto; split; try discriminate; tauto.
Qed.

Lemma tagsAgree_spec (tags : list Z) r1 r2 :
  tagsAgree Equals tags r1 r2 = true <->
  forall tag, tag ∈ tags -> nullSafeEqual Equals (r1 !! tag) (r2 !! tag).
Proof.
  induction tags as [| t rest IH]; simpl.
  - split; [intros _ tag Hin; inversion Hin | reflexivity].
  - rewrite !GetColVal_fst.
    destruct (valutil.NilSafeEqCheck Equals (r1 !! t) (r2 !! t)) eqn:Hc; simpl.
    + apply NilSafeEqCheck_spec in Hc. rewrite IH. split.
      * intros H tag Hin. apply elem_of_cons in Hin as [-> | Hin]; auto.
      * intros H tag Hin. apply H. now right.
    + split; [discriminate|]. intros H.
      specialize (H t (list_elem_of_here _ _)).
      apply NilSafeEqCheck_spec in H. congruence.
Qed.

(** C4: row equality is null-safe and scoped to the schema. Two non-nil
    rows are equal iff at every tag of the schema's column collection
    their values are equal under null-safe equality (both absent: equal;
    one absent, one present: unequal; both present: the values' own
    equality); two nil rows are equal, and a nil row never equals a
    non-nil one. *)
Theorem AreEqual_null_safe sch :
  AreEqual Equals None None sch = true
  /\ (forall r, AreEqual Equals None (Some r) sch = false
               /\ AreEqual Equals (Some r) None sch = false)
  /\ (forall r1 r2,
        AreEqual Equals (Some r1) (Some r2) sch = true <->
        forall tag, tag ∈ Tags (GetAllCols sch) ->
          match r1 !! tag, r2 !! tag with
          | None, None => True
          | Some v1, Some v2 => Equals v1 v2 = true
          | _, _ => False
          end).
Proof.
  split; [reflexivity|]. split; [intros r; split; reflexivity|].
  intros r1 r2. simpl. apply tagsAgree_spec.
Qed.

(** *** Further properties of rows *)

Lemma hitsViolation_true cnsts (val : option V) :
  hitsViolation cnsts val = true <->
  exists cnst, cnst ∈ cnsts /\ SatisfiesConstraint cnst val = false.
Proof.
  induction cnsts as [| c rest IH]; simpl.
  - split; [discriminate | intros (cnst & Hin & _); inversion Hin].
  - destruct (SatisfiesConstraint c val) eqn:Hc; simpl.
    + rewrite IH. split.
      * intros (cnst & Hin & Hs). exists cnst. split; [now right | exact Hs].
      * intros (cnst & Hin & Hs). apply elem_of_cons in Hin as [-> | Hin];
          [congruence | eauto].
    + split; [|reflexivity]. intros _. exists c. split; [left | exact Hc].
Qed.

Lemma violates_spec r (col : Column V TypeInfo) :
  violates r col <->
  (Nat.ltb 0 (length (Constraints col))
   && hitsViolation (Constraints col) (fst (GetColVal r (Tag col)))) = true.
Proof.
  unfold violates. rewrite GetColVal_fst, andb_true_iff, hitsViolation_true.
  split; [|tauto]. intros H. split; [|exact H].
  destruct H as (cnst & Hin & _). destruct (Constraints col); [inversion Hin | reflexivity].
Qed.

Lemma Iter_badCol r cols (badCol : option (Column V TypeInfo)) (col : Column V TypeInfo) :
  Iter cols (badColCb r) badCol = Some col <->
  (exists pre post, cols = pre ++ col :: post /\ violates r col
                    /\ Forall (fun c => ~ violates r c) pre)
  \/ (badCol = Some col /\ Forall (fun c => ~ violates r c) cols).
Proof.
  revert badCol. induction cols as [| c rest IH]; intros badCol; simpl.
  - split.
    + intros ->. right. split; [reflexivity | constructor].
    + intros [(pre & post & Heq & _) | [-> _]]; [|reflexivity].
      destruct pre; discriminate.
  - pose proof (violates_spec r c) as Hc.
    destruct (Nat.ltb 0 (length (Constraints c))) eqn:Hlen; simpl in Hc.
    + destruct (hitsViolation (Constraints c) (fst (GetColVal r (Tag c)))) eqn:Hv.
      * assert (Hviol : violates r c) by now apply Hc.
        split.
        -- intros [= <-]. left. exists [], rest. repeat split; [exact Hviol | constructor].
        -- intros [(pre & post & Heq & Hcol & Hpre) | [_ Hall]].
           ++ destruct pre as [| c' pre]; simpl in Heq.
              ** now injection Heq as -> _.
              ** injection Heq as -> _. apply Forall_cons in Hpre as [Hno _]. contradiction.
           ++ apply Forall_cons in Hall as [Hno _]. contradiction.
      * assert (Hok : ~ violates r c) by (rewrite Hc; discriminate).
        rewrite IH. split.
        -- intros [(pre & post & -> & Hcol & Hpre) | [-> Hall]].
           ++ left. exists (c :: pre), post. repeat split; [exact Hcol|].
              now constructor.
           ++ right. split; [reflexivity | now constructor].
        -- intros [(pre & post & Heq & Hcol & Hpre) | [-> Hall]].
           ++ destruct pre as [| c' pre]; simpl in Heq.
              ** injection Heq as -> _. contradiction.
              ** injection Heq as -> ->. apply Forall_cons in Hpre as [_ Hpre].
                 left. eauto.
           ++ apply Forall_cons in Hall as [_ Hall]. now right.
    + assert (Hok : ~ violates r c) by (rewrite Hc; discriminate).
      rewrite IH. split.
      * intros [(pre & post & -> & Hcol & Hpre) | [-> Hall]].
        -- left. exists (c :: pre), post. repeat split; [exact Hcol|]. now constructor.
        -- right. split; [reflexivity | now constructor].
      * intros [(pre & post & Heq & Hcol & Hpre) | [-> Hall]].
        -- destruct pre as [| c' pre]; simpl in Heq.
           ++ injection Heq as -> _. contradiction.
           ++ injection Heq as -> ->. apply Forall_cons in Hpre as [_ Hpre].
              left. eauto.
        -- apply Forall_cons in Hall as [_ Hall]. now right.
Qed.

(** [GetInvalidCol] returns the first column, in the order of the
    collection, with a constraint that the row's value (nil when absent)
    does not satisfy: every column before it passes all its constraints. *)
Theorem GetInvalidCol_first_violation r sch (col : Column V TypeInfo) :
  GetInvalidCol r sch = Some col <->
  exists pre post,
    GetAllCols sch = pre ++ col :: post
    /\ (exists cnst, cnst ∈ Constraints col
                     /\ SatisfiesConstraint cnst (r !! Tag col) = false)
    /\ Forall (fun c => forall cnst, cnst ∈ Constraints c ->
                                     SatisfiesConstraint cnst (r !! Tag c) = true) pre.
Proof.
  unfold GetInvalidCol. rewrite Iter_badCol.
  assert (Hno : forall c : Column V TypeInfo,
             ~ violates r c <->
             forall cnst, cnst ∈ Constraints c ->
                          SatisfiesConstraint cnst (r !! Tag c) = true).
  { intros c. unfold violates. split.
    - intros H cnst Hin. destruct (SatisfiesConstraint cnst (r !! Tag c)) eqn:E;
        [reflexivity | exfalso; eauto].
    - intros H (cnst & Hin & E). rewrite (H cnst Hin) in E. discriminate. }
  split.
  - intros [(pre & post & Heq & Hcol & Hpre) | [Hbad _]]; [|discriminate].
    exists pre, post. repeat split; [exact Heq | exact Hcol|].
    eapply Forall_impl; [exact Hpre|]. intros c. apply Hno.
  - intros (pre & post & Heq & Hcol & Hpre). left.
    exists pre, post. repeat split; [exact Heq | exact Hcol|].
    eapply Forall_impl; [exact Hpre|]. intros c. apply Hno.
Qed.

(** Validity against a schema is validity against each part of it: for
    a column collection split in two, [IsValid] is the conjunction of
    [IsValid] on the two parts. *)
Theorem IsValid_app r (cols1 cols2 : ColCollection V TypeInfo) :
  IsValid r (SchemaFromCols (cols1 ++ cols2))
  = IsValid r (SchemaFromCols cols1) && IsValid r (SchemaFromCols cols2).
Proof.
  apply eq_true_iff_eq. rewrite andb_true_iff, !IsValid_all_constraints. simpl.
  split.
  - intros H. split; intros col cnst Hcol; apply H; rewrite elem_of_app; tauto.
  - intros [H1 H2] col cnst Hcol. apply elem_of_app in Hcol as [Hcol | Hcol]; eauto.
Qed.

(** [AreEqual] looks at the tags of the schema only: rows that agree
    with [r1] and [r2] on those tags compare as [r1] and [r2] do,
    whatever they hold at other tags. *)
Theorem AreEqual_schema_scoped sch r1 r2 r1' r2' :
  (forall tag, tag ∈ Tags (GetAllCols sch) -> r1 !! tag = r1' !! tag) ->
  (forall tag, tag ∈ Tags (GetAllCols sch) -> r2 !! tag = r2' !! tag) ->
  AreEqual Equals (Some r1) (Some r2) sch = AreEqual Equals (Some r1') (Some r2') sch.
Proof.
  intros H1 H2. simpl. apply eq_true_iff_eq. rewrite !tagsAgree_spec.
  split; intros H tag Hin; specialize (H tag Hin).
  - now rewrite <- (H1 tag Hin), <- (H2 tag Hin).
  - now rewrite (H1 tag Hin), (H2 tag Hin).
Qed.

Lemma nullSafeEqual_refl (o : option V) :
  (forall v, Equals v v = true) -> nullSafeEqual Equals o o.
Proof. intros Hrefl. destruct o; simpl; auto. Qed.

(** [AreEqual] is an equivalence on rows, nil rows included, whenever
    the values' own [Equals] is reflexive, symmetric and transitive. *)
Theorem AreEqual_equivalence sch :
  (forall v, Equals v v = true) ->
  (forall v w, Equals v w = Equals w v) ->
  (forall u v w, Equals u v = true -> Equals v w = true -> Equals u w = true) ->
  (forall row, AreEqual Equals row row sch = true)
  /\ (forall row1 row2, AreEqual Equals row1 row2 sch = AreEqual Equals row2 row1 sch)
  /\ (forall row1 row2 row3,
        AreEqual Equals row1 row2 sch = true ->
        AreEqual Equals row2 row3 sch = true ->
        AreEqual Equals row1 row3 sch = true).
Proof.
  intros Hrefl Hsym Htrans. split; [|split].
  - intros [r|]; [|reflexivity]. simpl. apply tagsAgree_spec.
    intros tag _. now apply nullSafeEqual_refl.
  - intros [r1|] [r2|]; try reflexivity. simpl.
    apply eq_true_iff_eq. rewrite !tagsAgree_spec.
    split; intros H tag Hin; specialize (H tag Hin);
      destruct (r1 !! tag), (r2 !! tag); simpl in *; try tauto;
      now rewrite Hsym.
  - intros [r1|] [r2|] [r3|]; simpl; try discriminate; try reflexivity.
    rewrite !tagsAgree_spec. intros H12 H23 tag Hin.
    specialize (H12 tag Hin). specialize (H23 tag Hin).
    destruct (r1 !! tag), (r2 !! tag), (r3 !! tag); simpl in *; try tauto.
    eauto.
Qed.

Lemma iterEntries_lookup (entries : list (Z * V)) (m0 : gmap Z (option V)) (tag : Z) :
  NoDup (entries.*1) ->
  fst (iterEntries entries
         (fun tag val (taggedVals : gmap Z (option V)) =>
            (<[tag := val]> taggedVals, false)) m0) !! tag
  = match (list_to_map entries : gmap Z V) !! tag with
    | Some v => Some (Some v)
    | None => m0 !! tag
    end.
Proof.
  revert m0. induction entries as [| [k v] rest IH]; intros m0 Hnd.
  - simpl. now rewrite lookup_empty.
  - rewrite fmap_cons in Hnd. apply NoDup_cons in Hnd as [Hk Hnd].
    cbn [iterEntries]. rewrite IH by exact Hnd.
    change (list_to_map ((k, v) :: rest) : gmap Z V)
      with (<[k := v]> (list_to_map rest : gmap Z V)).
    destruct (decide (k = tag)) as [-> | Hne].
    + rewrite (not_elem_of_list_to_map_1 rest tag Hk).
      now rewrite !lookup_insert_eq.
    + rewrite (lookup_insert_ne (list_to_map rest) k tag v Hne).
      destruct (list_to_map rest !! tag); [reflexivity|].
      now rewrite lookup_insert_ne.
Qed.

(** [GetTaggedVals] copies the row: a tag is in the result exactly when
    [GetColVal] reports it present, and with the same value. *)
Theorem GetTaggedVals_lookup r (tag : Z) :
  GetTaggedVals r !! tag
  = (if snd (GetColVal r tag) then Some (fst (GetColVal r tag)) else None).
Proof.
  unfold GetTaggedVals, IterCols.
  rewrite iterEntries_lookup by apply NoDup_fst_map_to_list.
  rewrite list_to_map_to_list, lookup_empty.
  unfold GetColVal. destruct (r !! tag); reflexivity.
Qed.

End Facts.

Lemma AreEqual_schema_scoped_witness :
  let r1 : gmap Z string := {[ 0 := "ann"; 7 := "left" ]} in
  let r2 : gmap Z string := {[ 0 := "ann"; 1 := "b" ]} in
  AreEqual String.eqb (Some r1) (Some r2) sample.people
  = AreEqual String.eqb (Some (delete 7 r1)) (Some (<[9 := "more"]> r2)) sample.people.
Proof.
  intros r1 r2. apply AreEqual_schema_scoped.
  - intros tag Hin. simpl in Hin. rewrite !elem_of_cons, elem_of_nil in Hin.
    destruct Hin as [-> | [-> | []]]; reflexivity.
  - intros tag Hin. simpl in Hin. rewrite !elem_of_cons, elem_of_nil in Hin.
    destruct Hin as [-> | [-> | []]]; reflexivity.
Defined.

Lemma AreEqual_equivalence_witness :
  (forall row : option (gmap Z string),
      AreEqual String.eqb row row sample.people = true)
  /\ (forall row1 row2 : option (gmap Z string),
        AreEqual String.eqb row1 row2 sample.people
        = AreEqual String.eqb row2 row1 sample.people)
  /\ (forall row1 row2 row3 : option (gmap Z string),
        AreEqual String.eqb row1 row2 sample.people = true ->
        AreEqual String.eqb row2 row3 sample.people = true ->
        AreEqual String.eqb row1 row3 sample.people = true).
Proof.
  apply AreEqual_equivalence.
  - apply String.eqb_refl.
  - apply String.eqb_sym.
  - intros u v w Huv Hvw. apply String.eqb_eq in Huv, Hvw. subst. apply String.eqb_refl.
Defined.

(** C5, as the spec words it, fails: a row in which the value of a column
    with a nil-rejecting constraint is absent has no present tag that
    breaks a constraint, and [IsValid] returns false for it. *)
Lemma IsValid_absent_constrained_column :
  let sch : Schema Z unit := SchemaFromCols [mkColumn "id" 0 tt true [rejectsNil]] in
  let r : gmap Z Z := ∅ in
  r !! 0 = None /\ presentTagsSatisfy r sch /\ IsValid r sch = false
  /\ ~ (IsValid r sch = true <-> presentTagsSatisfy r sch).
Proof.
  intros sch r.
  assert (Hpres : presentTagsSatisfy r sch).
  { intros col v cnst _ Hlook _. unfold r in Hlook.
    rewrite lookup_empty in Hlook. discriminate. }
  assert (Hinv : IsValid r sch = false) by reflexivity.
  split; [reflexivity|]. split; [exact Hpres|]. split; [exact Hinv|].
  intros [_ Hback]. specialize (Hback Hpres). congruence.
Qed.

Lemma IsValid_checks_every_column_witness :
  let r : gmap Z string := {[ 0 := "ann" ]} in
  IsValid r sample.people = true /\ presentTagsSatisfy r sample.people.
Proof.
  intros r.
  assert (Hvalid : IsValid r sample.people = true) by reflexivity.
  split; [exact Hvalid|].
  destruct (IsValid_checks_every_column r sample.people) as (_ & Hsound & _).
  exact (Hsound Hvalid).
Defined.

Lemma AreEqual_null_safe_witness :
  let r1 : gmap Z string := {[ 0 := "ann"; 7 := "left" ]} in
  let r2 : gmap Z string := {[ 0 := "ann"; 7 := "right" ]} in
  AreEqual String.eqb (Some r1) (Some r2) sample.people = true
  /\ forall tag, tag ∈ Tags (GetAllCols sample.people) ->
       match r1 !! tag, r2 !! tag with
       | None, None => True
       | Some v1, Some v2 => String.eqb v1 v2 = true
       | _, _ => False
       end.
Proof.
  intros r1 r2.
  assert (Heq : AreEqual String.eqb (Some r1) (Some r2) sample.people = true)
    by reflexivity.
  split; [exact Heq|].
  destruct (AreEqual_null_safe String.eqb sample.people) as (_ & _ & Hiff).
  exact (proj1 (Hiff r1 r2) Heq).
Defined.

End RowFacts.

(** ** The outcome monad *)

Module OutcomeFacts.

Lemma bind_Ret {A B : Type} (m : outcome A) (k : A -> outcome B) (b : B) :
  m ≫= k = Ret b -> exists a, m = Ret a /\ k a = Ret b.
Proof. destruct m as [a | e | v]; simpl; intros H; [eauto | discriminate..]. Qed.

Lemma bind_Err {A B : Type} (m : outcome A) (k : A -> outcome B) (e : string) :
  m ≫= k = Err e -> m = Err e \/ exists a, m = Ret a /\ k a = Err e.
Proof. destruct m as [a | e' | v]; simpl; intros H; [eauto | left; congruence | discriminate]. Qed.

Lemma orErr_Err {A : Type} (w : string -> string) (r : fallible A) (e : string) :
  orErr w r = Err e -> exists e', r = Fails e' /\ e = w e'.
Proof. destruct r; simpl; intros H; [discriminate | injection H as <-; eauto]. Qed.

Lemma deref_not_Err {A : Type} (o : option A) (e : string) : deref o <> Err e.
Proof. destruct o; discriminate. Qed.

Lemma orErr_Ret {A : Type} (w : string -> string) (r : fallible A) (a : A) :
  orErr w r = Ret a -> r = Okay a.
Proof. destruct r; simpl; intros H; [congruence | discriminate]. Qed.

Lemma deref_Ret {A : Type} (o : option A) (a : A) : deref o = Ret a -> o = Some a.
Proof. destruct o; simpl; intros H; [congruence | discriminate]. Qed.

Lemma spf_bind {A B : Type} (m : outcome A) (k : A -> outcome B) :
  stringPanicFree m -> (forall a, stringPanicFree (k a)) -> stringPanicFree (m ≫= k).
Proof.
  intros Hm Hk msg. destruct m as [a | e | v]; simpl.
  - apply Hk.
  - discriminate.
  - intros H. apply (Hm msg). injection H as ->. reflexivity.
Qed.

Lemma spf_ret {A : Type} (a : A) : stringPanicFree (mret a).
Proof. intros msg. discriminate. Qed.

Lemma spf_Ret {A : Type} (a : A) : stringPanicFree (Ret a).
Proof. intros msg. discriminate. Qed.

Lemma spf_Err {A : Type} (e : string) : stringPanicFree (@Err A e).
Proof. intros msg. discriminate. Qed.

Lemma spf_orErr {A : Type} (w : string -> string) (r : fallible A) :
  stringPanicFree (orErr w r).
Proof. intros msg. destruct r; discriminate. Qed.

Lemma spf_deref {A : Type} (o : option A) : stringPanicFree (deref o).
Proof. intros msg. destruct o; discriminate. Qed.

End OutcomeFacts.

(** ** The command: schemas for display, header rows, table deltas *)

Module CommandsFacts.
Import schema diff commands OutcomeFacts.

Section DumbDownFacts.
Context {V TypeInfo : Type}.

Lemma dumbDown_iter (cols acc : list (Column V TypeInfo)) :
  IterErr cols
    (fun tag col (dumbCols : list (Column V TypeInfo)) =>
       let col1 := mkColumn (FormatUint10 tag) (Tag col) (TypeDesc col)
                            (IsPartOfPK col) (Constraints col) in
       let col2 := mkColumn (Name col1) (Tag col1) (TypeDesc col1)
                            (IsPartOfPK col1) [] in
       (dumbCols ++ [col2], false, None))
    acc
  = (acc ++ map dumbed cols, None).
Proof.
  revert acc. induction cols as [| c rest IH]; intros acc; simpl.
  - now rewrite app_nil_r.
  - rewrite IH. now rewrite <- app_assoc.
Qed.

Lemma Tags_dumbed (cols : list (Column V TypeInfo)) :
  map Tag (map dumbed cols) = map Tag cols.
Proof. induction cols as [| c rest IH]; simpl; [reflexivity | now rewrite IH]. Qed.

Lemma dumbDownSchema_unique (in_ : Schema V TypeInfo) :
  uniqueTags (GetAllCols in_) ->
  dumbDownSchema in_ = Ret (SchemaFromCols (map dumbed (GetAllCols in_))).
Proof.
  intros Huniq. unfold dumbDownSchema. rewrite dumbDown_iter. simpl.
  unfold NewColCollection. rewrite Tags_dumbed.
  destruct (decide (NoDup (map Tag (GetAllCols in_)))) as [_ | Hdup];
    [reflexivity | contradiction].
Qed.

(** C6: for every schema (its tags unique, as schemas have them),
    [dumbDownSchema] returns a schema with the same tags in the same order
    in which each column is named by the decimal rendering of its tag, has
    no constraints, and keeps its tag, type and primary-key membership. *)
Theorem dumbDownSchema_renames_and_strips (in_ : Schema V TypeInfo) :
  uniqueTags (GetAllCols in_) ->
  exists out,
    dumbDownSchema in_ = Ret out
    /\ Tags (GetAllCols out) = Tags (GetAllCols in_)
    /\ Forall2 (fun col dumb =>
                  Name dumb = FormatUint10 (Tag col)
                  /\ Constraints dumb = []
                  /\ Tag dumb = Tag col
                  /\ TypeDesc dumb = TypeDesc col
                  /\ IsPartOfPK dumb = IsPartOfPK col)
               (GetAllCols in_) (GetAllCols out).
Proof.
  intros Huniq. eexists. split; [now apply dumbDownSchema_unique|].
  simpl. split; [apply Tags_dumbed|]. clear Huniq.
  induction (GetAllCols in_) as [| c rest IH]; simpl; constructor.
  - repeat split.
  - exact IH.
Qed.

End DumbDownFacts.

Example FormatUint10_renders : FormatUint10 0 = "0" /\ FormatUint10 12345 = "12345".
Proof. split; reflexivity. Qed.

Lemma dumbDownSchema_renames_and_strips_witness :
  let sch : Schema Z unit :=
    SchemaFromCols [mkColumn "id" 7 tt true [row.rejectsNil];
                    mkColumn "name" 42 tt false []] in
  uniqueTags (GetAllCols sch) /\
  exists out,
    dumbDownSchema sch = Ret out
    /\ Tags (GetAllCols out) = [7; 42]
    /\ Forall2 (fun col dumb =>
                  Name dumb = FormatUint10 (Tag col)
                  /\ Constraints dumb = []
                  /\ Tag dumb = Tag col
                  /\ TypeDesc dumb = TypeDesc col
                  /\ IsPartOfPK dumb = IsPartOfPK col)
               (GetAllCols sch) (GetAllCols out).
Proof.
  intros sch.
  assert (Huniq : uniqueTags (GetAllCols sch)).
  { unfold uniqueTags. simpl. compute_done. }
  split; [exact Huniq|].
  exact (dumbDownSchema_renames_and_strips sch Huniq).
Defined.

Section RowsFacts.
Context {V TypeInfo : Type}.
Context {NomsMap Joiner FieldMapping RowConverter DiffSplitter Source Sink FilterFn : Type}.

Variable fwtStageName : string.
Variable NullPrintingStage : string.
Variable DiffTypeProp : string.
Variable NewJoiner : option (Schema V TypeInfo) -> option (Schema V TypeInfo) -> fallible Joiner.
Variable JoinerSchema : Joiner -> Schema V TypeInfo.
Variable UntypedSchemaUnion :
  Schema V TypeInfo -> Schema V TypeInfo -> fallible (Schema V TypeInfo).
Variable TagMapping :
  Schema V TypeInfo -> option (Schema V TypeInfo) -> fallible FieldMapping.
Variable NewRowConverter : FieldMapping -> RowConverter.
Variable IdentityConverter : RowConverter.
Variable NewDiffSplitter : Joiner -> RowConverter -> RowConverter -> DiffSplitter.
Variable NewRowDiffSource : NomsMap -> NomsMap -> Joiner -> Source.
Variable NewColorDiffSink : option (Schema V TypeInfo) -> Z -> fallible Sink.
Variable NewSQLDiffSink : option (Schema V TypeInfo) -> string -> fallible Sink.
Variable ParseWhere : Schema V TypeInfo -> string -> fallible (option FilterFn).
Variable NewRowFromTaggedStrings :
  option (Schema V TypeInfo) -> gmap Z string -> fallible (gmap Z V).

Local Abbreviation unionSchema := (unionSchemaFor UntypedSchemaUnion).
Local Abbreviation dumbedSides := (fromDumbedSides UntypedSchemaUnion).
Local Abbreviation splitter :=
  (createSplitter UntypedSchemaUnion TagMapping NewRowConverter IdentityConverter
                  NewDiffSplitter).
Local Abbreviation headers :=
  (headerRows fwtStageName DiffTypeProp NewRowFromTaggedStrings).
Local Abbreviation pipelineFor :=
  (buildPipeline (Source := Source) (Sink := Sink)
                 fwtStageName NullPrintingStage JoinerSchema ParseWhere).
Local Abbreviation setup :=
  (diffRowsSetup fwtStageName NullPrintingStage DiffTypeProp NewJoiner JoinerSchema
                 UntypedSchemaUnion TagMapping NewRowConverter IdentityConverter
                 NewDiffSplitter NewRowDiffSource NewColorDiffSink NewSQLDiffSink
                 ParseWhere NewRowFromTaggedStrings).

Implicit Types (fromSch toSch unionSch : option (Schema V TypeInfo)) (dArgs : diffArgs).

Lemma unionSchemaFor_tabular fromSch toSch dArgs unionSch :
  diffOutput dArgs = TabularDiffOutput ->
  unionSchema fromSch toSch dArgs = Ret unionSch ->
  dumbedSides fromSch toSch unionSch.
Proof using UntypedSchemaUnion.
  intros Hmode. unfold unionSchemaFor. rewrite Hmode. simpl. intros H.
  apply bind_Ret in H as (dumbNewSch & Hnew & H).
  apply bind_Ret in Hnew as (toS & Hto & Hnew). apply deref_Ret in Hto.
  apply bind_Ret in H as (dumbOldSch & Hold & H).
  apply bind_Ret in Hold as (fromS & Hfrom & Hold). apply deref_Ret in Hfrom.
  apply bind_Ret in H as (union & Hunion & H). apply orErr_Ret in Hunion.
  injection H as <-.
  exists toS, fromS, dumbNewSch, dumbOldSch, union. repeat split; assumption.
Qed.

Lemma unionSchemaFor_other fromSch toSch dArgs :
  diffOutput dArgs <> TabularDiffOutput ->
  unionSchema fromSch toSch dArgs = Ret toSch.
Proof.
  intros Hmode. unfold unionSchemaFor.
  destruct (Z.eqb_spec (diffOutput dArgs) TabularDiffOutput); [contradiction | reflexivity].
Qed.

Lemma createSplitter_union fromSch toSch (joiner : Joiner) dArgs unionSch (ds : DiffSplitter) :
  splitter fromSch toSch joiner dArgs = Ret (unionSch, ds) ->
  unionSchema fromSch toSch dArgs = Ret unionSch.
Proof.
  unfold createSplitter. intros H.
  apply bind_Ret in H as (u & Hu & H).
  apply bind_Ret in H as (newConv & _ & H).
  apply bind_Ret in H as (oldConv & _ & H).
  injection H as <- _. exact Hu.
Qed.

(** C7: whenever [createSplitter] returns, the union schema is built from
    [dumbDownSchema] of the two sides exactly when the output mode is
    [TabularDiffOutput]; in every other mode, [SQLDiffOutput] in
    particular, it is the to-side schema itself, names and types
    untouched, whatever the union of dumbed-down schemas would be. *)
Theorem createSplitter_union_schema fromSch toSch (joiner : Joiner) dArgs
    unionSch (ds : DiffSplitter) :
  splitter fromSch toSch joiner dArgs = Ret (unionSch, ds) ->
  (diffOutput dArgs = TabularDiffOutput -> dumbedSides fromSch toSch unionSch)
  /\ (diffOutput dArgs <> TabularDiffOutput -> unionSch = toSch)
  /\ (diffOutput dArgs = SQLDiffOutput -> unionSch = toSch).
Proof using UntypedSchemaUnion TagMapping NewRowConverter IdentityConverter NewDiffSplitter.
  intros H. apply createSplitter_union in H.
  assert (Hother : diffOutput dArgs <> TabularDiffOutput -> unionSch = toSch).
  { intros Hmode. rewrite (unionSchemaFor_other _ _ _ Hmode) in H.
    injection H as <-. reflexivity. }
  split; [|split].
  - intros Hmode. exact (unionSchemaFor_tabular _ _ _ _ Hmode H).
  - exact Hother.
  - intros Hmode. apply Hother. rewrite Hmode.
    unfold SQLDiffOutput, TabularDiffOutput. lia.
Qed.

Lemma buildPipeline_fresh dArgs (joiner : Joiner) (ds : DiffSplitter) unionSch
    (src : Source) (sink : Sink) (p : @Pipeline V) :
  pipelineFor dArgs joiner ds unionSch src sink = Ret p ->
  injected p = [] /\ isRunning p = false
  /\ (diffOutput dArgs = TabularDiffOutput -> fwtStageName ∈ stages p).
Proof.
  unfold buildPipeline. intros H.
  apply bind_Ret in H as (wh & _ & H). injection H as <-. simpl.
  split; [reflexivity|]. split; [reflexivity|].
  intros ->. simpl. rewrite !elem_of_app, !elem_of_cons. tauto.
Qed.

(** C8: when [diffRows] reaches [p.Start()], the pipeline is not yet
    running and, for tabular output, holds at the fixed-width-formatting
    stage exactly one header row if the old and new tag-to-column-name
    maps are equal and exactly two otherwise, the first built from the
    old-side names with [DiffModifiedOld], the second from the new-side
    names with [DiffModifiedNew], in that order; for SQL output it holds
    no injected row. *)
Theorem diffRows_header_rows (fromRows toRows : NomsMap) fromSch toSch dArgs
    (tblName : string) (p : @Pipeline V) :
  setup fromRows toRows fromSch toSch dArgs tblName = Ret p ->
  isRunning p = false
  /\ (diffOutput dArgs = SQLDiffOutput -> injected p = [])
  /\ (diffOutput dArgs = TabularDiffOutput ->
      fwtStageName ∈ stages p
      /\ exists unionSch oldColNames newColNames,
           unionSchema fromSch toSch dArgs = Ret unionSch
           /\ mapTagToColName fromSch unionSch = Ret oldColNames
           /\ mapTagToColName toSch unionSch = Ret newColNames
           /\ headers unionSch oldColNames newColNames (injected p)
           /\ length (injected p) = (if decide (oldColNames = newColNames) then 1 else 2)%nat).
Proof.
  unfold diffRowsSetup. intros H.
  apply bind_Ret in H as (joiner & _ & H).
  apply bind_Ret in H as ([unionSch ds] & Hsplit & H).
  apply createSplitter_union in Hsplit.
  apply bind_Ret in H as (oldColNames & Hold & H).
  apply bind_Ret in H as (newColNames & Hnew & H).
  apply bind_Ret in H as (sink & _ & H).
  apply bind_Ret in H as (p0 & Hp0 & H).
  apply buildPipeline_fresh in Hp0 as (Hinj0 & Hrun0 & Hfwt0).
  destruct (Z.eqb_spec (diffOutput dArgs) SQLDiffOutput) as [Hsql | Hnsql]; simpl in H.
  - injection H as <-.
    split; [exact Hrun0|]. split; [intros _; exact Hinj0|].
    intros Htab. rewrite Htab in Hsql. discriminate.
  - assert (Hhdr : isRunning p = false /\ stages p = stages p0
                   /\ headers unionSch oldColNames newColNames (injected p)
                   /\ length (injected p)
                      = (if decide (oldColNames = newColNames) then 1 else 2)%nat).
    { destruct (decide (oldColNames = newColNames)) as [Heq | Hne].
      - rewrite (bool_decide_eq_true_2 _ Heq) in H.
        apply bind_Ret in H as (schRow & Hrow & H). apply orErr_Ret in Hrow.
        injection H as <-. unfold InjectRow, InjectRowWithProps. simpl.
        rewrite Hinj0. simpl.
        repeat split; [exact Hrun0|]. left. split; [exact Heq|]. eauto.
      - rewrite (bool_decide_eq_false_2 _ Hne) in H.
        apply bind_Ret in H as (oldNamesRow & Hrow1 & H). apply orErr_Ret in Hrow1.
        apply bind_Ret in H as (newNamesRow & Hrow2 & H). apply orErr_Ret in Hrow2.
        injection H as <-. unfold InjectRowWithProps. simpl.
        rewrite Hinj0. simpl.
        repeat split; [exact Hrun0|]. right. split; [exact Hne|]. eauto. }
    destruct Hhdr as (Hrun & Hst & Hrows & Hlen).
    split; [exact Hrun|]. split; [intros Hsql; contradiction|].
    intros Htab. split; [rewrite Hst; now apply Hfwt0|].
    exists unionSch, oldColNames, newColNames. tauto.
Qed.

Lemma dumbDownSchema_spf (in_ : Schema V TypeInfo) : stringPanicFree (dumbDownSchema in_).
Proof.
  intros msg. unfold dumbDownSchema. rewrite dumbDown_iter. simpl.
  destruct (NewColCollection _); discriminate.
Qed.

Lemma mapTagToColName_spf fromSch unionSch :
  stringPanicFree (mapTagToColName fromSch unionSch).
Proof.
  unfold mapTagToColName.
  apply spf_bind; [apply spf_deref | intros sch'].
  apply spf_bind; [apply spf_deref | intros union].
  destruct (IterErr _ _ _) as [m [e|]]; [apply spf_Err | apply spf_Ret].
Qed.

Lemma unionSchemaFor_spf fromSch toSch dArgs :
  stringPanicFree (unionSchema fromSch toSch dArgs).
Proof.
  unfold unionSchemaFor. destruct (Z.eqb _ _); [|apply spf_ret].
  apply spf_bind; [|intros dumbNewSch].
  { apply spf_bind; [apply spf_deref | intros; apply dumbDownSchema_spf]. }
  apply spf_bind; [|intros dumbOldSch].
  { apply spf_bind; [apply spf_deref | intros; apply dumbDownSchema_spf]. }
  apply spf_bind; [apply spf_orErr | intros; apply spf_ret].
Qed.

Lemma createSplitter_spf fromSch toSch (joiner : Joiner) dArgs :
  stringPanicFree (splitter fromSch toSch joiner dArgs).
Proof.
  unfold createSplitter.
  apply spf_bind; [apply unionSchemaFor_spf | intros unionSch].
  apply spf_bind; [|intros newConv].
  { destruct toSch; [|apply spf_ret].
    apply spf_bind; [apply spf_orErr | intros; apply spf_ret]. }
  apply spf_bind; [|intros oldConv; apply spf_ret].
  destruct fromSch; [|apply spf_ret].
  apply spf_bind; [apply spf_orErr | intros; apply spf_ret].
Qed.

Lemma diffRowsSetup_spf (fromRows toRows : NomsMap) fromSch toSch dArgs (tblName : string) :
  stringPanicFree (setup fromRows toRows fromSch toSch dArgs tblName).
Proof.
  unfold diffRowsSetup.
  apply spf_bind; [apply spf_orErr | intros joiner].
  apply spf_bind; [apply createSplitter_spf | intros [unionSch ds]].
  apply spf_bind; [apply mapTagToColName_spf | intros oldColNames].
  apply spf_bind; [apply mapTagToColName_spf | intros newColNames].
  apply spf_bind; [apply spf_orErr | intros sink].
  apply spf_bind; [|intros p].
  { unfold buildPipeline. apply spf_bind; [apply spf_orErr | intros; apply spf_ret]. }
  destruct (negb _); [|apply spf_ret].
  destruct (bool_decide _).
  - apply spf_bind; [apply spf_orErr | intros; apply spf_ret].
  - apply spf_bind; [apply spf_orErr | intros].
    apply spf_bind; [apply spf_orErr | intros; apply spf_ret].
Qed.

Lemma diffRows_spf (Wait : @Pipeline V -> option string * option string)
    (fromRows toRows : NomsMap) fromSch toSch dArgs (tblName : string) :
  stringPanicFree
    (diffRows fwtStageName NullPrintingStage DiffTypeProp NewJoiner JoinerSchema
              UntypedSchemaUnion TagMapping NewRowConverter IdentityConverter
              NewDiffSplitter NewRowDiffSource NewColorDiffSink NewSQLDiffSink
              ParseWhere NewRowFromTaggedStrings Wait
              fromRows toRows fromSch toSch dArgs tblName).
Proof.
  unfold diffRows.
  apply spf_bind; [apply diffRowsSetup_spf | intros p].
  destruct (Wait (Start p)) as [[e|] [b|]];
    first [apply spf_Err | apply spf_ret].
Qed.

End RowsFacts.

Section RootsFacts.
Context {V TypeInfo : Type}.
Context {NomsMap Joiner FieldMapping RowConverter DiffSplitter Source Sink FilterFn : Type}.
Context {Root Table : Type}.

Variable fwtStageName : string.
Variable NullPrintingStage : string.
Variable DiffTypeProp : string.
Variable DocTableName : string.
Variable NewJoiner : option (Schema V TypeInfo) -> option (Schema V TypeInfo) -> fallible Joiner.
Variable JoinerSchema : Joiner -> Schema V TypeInfo.
Variable UntypedSchemaUnion :
  Schema V TypeInfo -> Schema V TypeInfo -> fallible (Schema V TypeInfo).
Variable TagMapping :
  Schema V TypeInfo -> option (Schema V TypeInfo) -> fallible FieldMapping.
Variable NewRowConverter : FieldMapping -> RowConverter.
Variable IdentityConverter : RowConverter.
Variable NewDiffSplitter : Joiner -> RowConverter -> RowConverter -> DiffSplitter.
Variable NewRowDiffSource : NomsMap -> NomsMap -> Joiner -> Source.
Variable NewColorDiffSink : option (Schema V TypeInfo) -> Z -> fallible Sink.
Variable NewSQLDiffSink : option (Schema V TypeInfo) -> string -> fallible Sink.
Variable ParseWhere : Schema V TypeInfo -> string -> fallible (option FilterFn).
Variable NewRowFromTaggedStrings :
  option (Schema V TypeInfo) -> gmap Z string -> fallible (gmap Z V).
Variable Wait : @Pipeline V -> option string * option string.
Variable GetTableDeltas : Root -> Root -> fallible (list (@TableDelta Table)).
Variable UnionTableNames : Root -> Root -> fallible (list string).
Variable GetSchemas :
  @TableDelta Table -> fallible (option (Schema V TypeInfo) * option (Schema V TypeInfo)).
Variable GetMaps : @TableDelta Table -> fallible (NomsMap * NomsMap).
Variable SchemasAreEqual : option (Schema V TypeInfo) -> option (Schema V TypeInfo) -> bool.
Variable HashOf : Table -> fallible string.
Variable SummaryRun : NomsMap -> NomsMap -> list summary.delivery * option string.

Local Abbreviation schemasDiff := (diffSchemas GetSchemas SchemasAreEqual).
Local Abbreviation deltaStep :=
  (diffTableDelta fwtStageName NullPrintingStage DiffTypeProp DocTableName NewJoiner
     JoinerSchema UntypedSchemaUnion TagMapping NewRowConverter IdentityConverter
     NewDiffSplitter NewRowDiffSource NewColorDiffSink NewSQLDiffSink ParseWhere
     NewRowFromTaggedStrings Wait GetSchemas GetMaps SchemasAreEqual HashOf SummaryRun).
Local Abbreviation rootsLoop :=
  (diffRootsLoop fwtStageName NullPrintingStage DiffTypeProp DocTableName NewJoiner
     JoinerSchema UntypedSchemaUnion TagMapping NewRowConverter IdentityConverter
     NewDiffSplitter NewRowDiffSource NewColorDiffSink NewSQLDiffSink ParseWhere
     NewRowFromTaggedStrings Wait GetSchemas GetMaps SchemasAreEqual HashOf SummaryRun).
Local Abbreviation roots :=
  (diffRoots fwtStageName NullPrintingStage DiffTypeProp DocTableName NewJoiner
     JoinerSchema UntypedSchemaUnion TagMapping NewRowConverter IdentityConverter
     NewDiffSplitter NewRowDiffSource NewColorDiffSink NewSQLDiffSink ParseWhere
     NewRowFromTaggedStrings Wait GetTableDeltas UnionTableNames GetSchemas GetMaps
     SchemasAreEqual HashOf SummaryRun).

Implicit Types (td : @TableDelta Table) (dArgs : diffArgs).

Lemma printTableDiffSummary_spf (tblName : string) (fromTable toTable : option Table) :
  stringPanicFree (printTableDiffSummary DocTableName HashOf tblName fromTable toTable).
Proof.
  intros msg. unfold printTableDiffSummary.
  destruct (String.eqb _ _); [discriminate|].
  destruct toTable, fromTable; try discriminate.
  destruct (HashOf _); [|discriminate].
  destruct (HashOf _); discriminate.
Qed.

Lemma sqlSchemaDiff_spf td : stringPanicFree (sqlSchemaDiff GetSchemas td).
Proof.
  unfold sqlSchemaDiff. apply spf_bind; [apply spf_orErr | intros; apply spf_ret].
Qed.

(** Past the guard of [diffRoots], [diffSchemas] does not reach its panic. *)
Lemma diffSchemas_guarded td dArgs :
  (Z.eqb (diffOutput dArgs) TabularDiffOutput && (IsDrop td || IsAdd td)) = false ->
  stringPanicFree (schemasDiff td dArgs).
Proof.
  intros Hguard. unfold diffSchemas.
  apply spf_bind; [apply spf_orErr | intros [fromSch toSch]].
  destruct (SchemasAreEqual _ _); [apply spf_ret|].
  destruct (Z.eqb _ _); simpl in Hguard.
  - rewrite Hguard. apply spf_ret.
  - apply sqlSchemaDiff_spf.
Qed.

Lemma asVErr_spf (o : outcome unit) : stringPanicFree o -> stringPanicFree (asVErr o).
Proof.
  intros Ho msg. destruct o as [[] | e | v]; simpl; try discriminate.
  intros H. apply (Ho msg). injection H as ->. reflexivity.
Qed.

Lemma spf_Panic_eq {A B : Type} (o : outcome A) (v : panicValue) :
  stringPanicFree o -> o = Panic v -> stringPanicFree (@Panic B v).
Proof.
  intros Ho -> msg H. apply (Ho msg). injection H as ->. reflexivity.
Qed.

Lemma guard_onExisting td dArgs :
  (Z.eqb (diffOutput dArgs) TabularDiffOutput && (IsDrop td || IsAdd td)) = false ->
  onExistingTable (td, dArgs).
Proof.
  intros Hguard Htab. simpl in *. rewrite Htab in Hguard. simpl in Hguard.
  apply orb_false_elim in Hguard. tauto.
Qed.

Lemma diffTableDelta_keeps dArgs td (verr : option string) :
  stepKeeps (deltaStep dArgs td verr).
Proof.
  unfold diffTableDelta.
  destruct (_ && _); [constructor|].
  destruct (_ && _); [split; [constructor | apply spf_Err]|].
  destruct (if Z.eqb (diffOutput dArgs) TabularDiffOutput then _ else _)
    as [[] | e | v] eqn:Hprint.
  2: { split; [constructor | apply spf_Err]. }
  2: { split; [constructor|]. eapply spf_Panic_eq; [|exact Hprint].
       destruct (Z.eqb _ _); [apply printTableDiffSummary_spf | apply spf_ret]. }
  destruct (Z.eqb (diffOutput dArgs) TabularDiffOutput && (IsDrop td || IsAdd td))
    eqn:Hguard; [constructor|].
  destruct (String.eqb _ _); [constructor|].
  destruct (GetSchemas td) as [[fromSch toSch] | e]; [|split; [constructor | apply spf_Err]].
  destruct (GetMaps td) as [[fromMap toMap] | e]; [|split; [constructor | apply spf_Err]].
  destruct (if negb (Z.eqb (Z.land (diffParts dArgs) Summary) 0) then _ else _)
    as [verr1 | e | v] eqn:Hsum.
  2: { split; [constructor | apply spf_Err]. }
  2: { split; [constructor|]. eapply spf_Panic_eq; [|exact Hsum].
       destruct (negb _); [|apply spf_ret].
       apply spf_bind; [apply spf_deref | intros fromSch'].
       destruct (SummaryRun _ _). apply spf_ret. }
  set (schemaPart := negb (Z.eqb (Z.land (diffParts dArgs) SchemaOnlyDiff) 0)).
  assert (Hcalls : Forall onExistingTable (if schemaPart then [(td, dArgs)] else [])).
  { destruct schemaPart;
      [constructor; [now apply guard_onExisting | constructor] | constructor]. }
  destruct (if schemaPart then asVErr _ else _) as [verr2 | e | v] eqn:Hsch.
  2: { split; [exact Hcalls | apply spf_Err]. }
  2: { split; [exact Hcalls|]. eapply spf_Panic_eq; [|exact Hsch].
       destruct schemaPart; [|apply spf_ret].
       apply asVErr_spf. now apply diffSchemas_guarded. }
  destruct (negb (Z.eqb (Z.land (diffParts dArgs) DataOnlyDiff) 0)).
  - clear Hsch.
    destruct (IsDrop td && Z.eqb (diffOutput dArgs) SQLDiffOutput); [exact Hcalls|].
    destruct (asVErr _) as [[e|] | e | v] eqn:Hrows; cbn [stepKeeps].
    + split; [exact Hcalls | apply spf_Err].
    + exact Hcalls.
    + split; [exact Hcalls | apply spf_Err].
    + split; [exact Hcalls|]. eapply spf_Panic_eq; [|exact Hrows].
      apply asVErr_spf. apply diffRows_spf.
  - destruct verr2; [split; [exact Hcalls | apply spf_Err] | exact Hcalls].
Qed.

Lemma diffRootsLoop_keeps dArgs (tableDeltas : list (@TableDelta Table))
    (verr : option string) :
  Forall onExistingTable (snd (rootsLoop dArgs tableDeltas verr))
  /\ stringPanicFree (fst (rootsLoop dArgs tableDeltas verr)).
Proof.
  revert verr. induction tableDeltas as [| td rest IH]; intros verr; simpl.
  - split; [constructor | apply spf_Ret].
  - pose proof (diffTableDelta_keeps dArgs td verr) as Hstep.
    destruct (deltaStep dArgs td verr) as [verr' calls | r calls]; simpl in Hstep.
    + specialize (IH verr').
      destruct (rootsLoop dArgs rest verr') as [r later]. simpl in *.
      split; [apply Forall_app; tauto | tauto].
    + exact Hstep.
Qed.

(** C10: every invocation of [diffSchemas] that [diffRoots] makes in
    tabular mode is for a delta that is neither an added nor a dropped
    table, and [diffRoots] never ends in the panic 'cannot perform tabular
    schema diff for added/dropped tables'. *)
Theorem diffRoots_never_panics_on_added_dropped (fromRoot toRoot : Root) dArgs :
  Forall (fun c : schemaCall =>
            diffOutput (snd c) = TabularDiffOutput ->
            IsAdd (fst c) = false /\ IsDrop (fst c) = false)
         (snd (roots fromRoot toRoot dArgs))
  /\ fst (roots fromRoot toRoot dArgs) <> Panic addedDroppedPanic
  /\ Forall (fun c : schemaCall => schemasDiff (fst c) (snd c) <> Panic addedDroppedPanic)
            (snd (roots fromRoot toRoot dArgs)).
Proof.
  assert (Hkeeps : Forall onExistingTable (snd (roots fromRoot toRoot dArgs))
                   /\ stringPanicFree (fst (roots fromRoot toRoot dArgs))).
  { unfold diffRoots.
    destruct (GetTableDeltas _ _) as [tableDeltas | e];
      [|split; [constructor | apply spf_Err]].
    destruct (bool_decide _); [|apply diffRootsLoop_keeps].
    destruct (UnionTableNames _ _) as [utn | e];
      [apply diffRootsLoop_keeps | split; [constructor | apply spf_Err]]. }
  destruct Hkeeps as [Hcalls Hspf].
  split; [exact Hcalls|]. split; [apply Hspf|].
  eapply Forall_impl; [exact Hcalls|].
  intros [td a] Hok. simpl. apply diffSchemas_guarded.
  destruct (Z.eqb_spec (diffOutput a) TabularDiffOutput) as [Htab|]; [|reflexivity].
  destruct (Hok Htab) as [Hadd Hdrop]. simpl in *. now rewrite Hadd, Hdrop.
Qed.

End RootsFacts.

(** *** Further properties of the schemas for display *)

Lemma FormatUint10_inj (a b : Z) :
  0 <= a -> 0 <= b -> FormatUint10 a = FormatUint10 b -> a = b.
Proof.
  intros Ha Hb H. unfold FormatUint10 in H.
  assert (Hu : N.to_uint (Z.to_N a) = N.to_uint (Z.to_N b)).
  { pose proof (NilEmpty.usu (N.to_uint (Z.to_N a))) as H1.
    pose proof (NilEmpty.usu (N.to_uint (Z.to_N b))) as H2.
    rewrite H in H1. rewrite H1 in H2. now injection H2. }
  apply DecimalN.Unsigned.to_uint_inj in Hu. now apply Z2N.inj.
Qed.

Section DisplayFacts.
Context {V TypeInfo : Type}.

Lemma dumbed_idem (col : Column V TypeInfo) : dumbed (dumbed col) = dumbed col.
Proof. reflexivity. Qed.

Lemma dumbDownSchema_Ret (in_ out : Schema V TypeInfo) :
  dumbDownSchema in_ = Ret out ->
  uniqueTags (GetAllCols in_) /\ GetAllCols out = map dumbed (GetAllCols in_).
Proof.
  unfold dumbDownSchema. rewrite dumbDown_iter. simpl.
  unfold NewColCollection. rewrite Tags_dumbed.
  destruct (decide (NoDup (map Tag (GetAllCols in_)))) as [Hnd | Hdup]; [|discriminate].
  intros [= <-]. split; [exact Hnd | reflexivity].
Qed.

(** Dumbing down is idempotent: a schema that [dumbDownSchema] returned
    is returned unchanged when dumbed down again. *)
Theorem dumbDownSchema_idempotent (in_ out : Schema V TypeInfo) :
  dumbDownSchema in_ = Ret out -> dumbDownSchema out = Ret out.
Proof.
  intros H. apply dumbDownSchema_Ret in H as [Huniq Hcols].
  assert (Huniq' : uniqueTags (GetAllCols out)).
  { unfold uniqueTags, Tags. rewrite Hcols, Tags_dumbed. exact Huniq. }
  rewrite (dumbDownSchema_unique out Huniq'). f_equal.
  destruct out as [cols]. simpl in *. f_equal. rewrite Hcols.
  rewrite map_map. apply map_ext. intros col. apply dumbed_idem.
Qed.

(** The names [dumbDownSchema] gives are pairwise different: in the
    schema it returns no two columns share a name. *)
Theorem dumbDownSchema_names_unique (in_ out : Schema V TypeInfo) :
  Forall (fun col => 0 <= Tag col) (GetAllCols in_) ->
  dumbDownSchema in_ = Ret out ->
  NoDup (map Name (GetAllCols out)).
Proof.
  intros Hpos H. apply dumbDownSchema_Ret in H as [Huniq ->].
  rewrite map_map. simpl.
  rewrite <- (map_map Tag FormatUint10).
  apply NoDup_ListNoDup.
  apply List.NoDup_map_NoDup_ForallPairs; [|apply NoDup_ListNoDup; exact Huniq].
  intros a b Ha Hb. apply in_map_iff in Ha as (ca & <- & Hca).
  apply in_map_iff in Hb as (cb & <- & Hcb).
  rewrite List.Forall_forall in Hpos. apply FormatUint10_inj; auto.
Qed.

(** The iteration of [mapTagToColName] ends without error, having
    recorded a name for the tag of every column it visited. *)
Lemma mapTagToColName_iter (sch : Schema V TypeInfo) (cols : ColCollection V TypeInfo)
    (m0 : gmap Z string) :
  exists m,
    IterErr cols
      (fun tag (_ : Column V TypeInfo) (tagToCol : gmap Z string) =>
         match GetByTag (GetAllCols sch) tag with
         | Some col => (<[tag := Name col]> tagToCol, false, None)
         | None => (<[tag := EmptyString]> tagToCol, false, None)
         end) m0 = (m, None)
    /\ forall tag, m !! tag = if bool_decide (tag ∈ Tags cols)
                              then Some (nameOrEmpty sch tag) else m0 !! tag.
Proof.
  revert m0. induction cols as [| c rest IH]; intros m0.
  - exists m0. split; [reflexivity|]. intros tag.
    rewrite bool_decide_eq_false_2; [reflexivity | apply not_elem_of_nil].
  - cbn [IterErr].
    assert (Hstep : exists m1,
               match GetByTag (GetAllCols sch) (Tag c) with
               | Some col => (<[Tag c := Name col]> m0, false, @None string)
               | None => (<[Tag c := EmptyString]> m0, false, None)
               end = (m1, false, None)
               /\ m1 = <[Tag c := nameOrEmpty sch (Tag c)]> m0).
    { unfold nameOrEmpty. destruct (GetByTag (GetAllCols sch) (Tag c)); eauto. }
    destruct Hstep as (m1 & -> & ->).
    destruct (IH (<[Tag c := nameOrEmpty sch (Tag c)]> m0)) as (m & -> & Hm).
    exists m. split; [reflexivity|]. intros tag. rewrite Hm.
    unfold Tags. cbn [map].
    destruct (decide (tag ∈ map Tag rest)) as [Hin | Hnin].
    + rewrite !bool_decide_eq_true_2; [reflexivity | now right | exact Hin].
    + rewrite (bool_decide_eq_false_2 _ Hnin).
      destruct (decide (Tag c = tag)) as [<- | Hne].
      * rewrite lookup_insert_eq. rewrite bool_decide_eq_true_2; [reflexivity | now left].
      * rewrite lookup_insert_ne by exact Hne.
        rewrite bool_decide_eq_false_2; [reflexivity|].
        rewrite elem_of_cons. intros [-> | H]; [now apply Hne | contradiction].
Qed.

Lemma mapTagToColName_Some (sch union : Schema V TypeInfo) :
  exists tagToCol,
    mapTagToColName (Some sch) (Some union) = Ret tagToCol
    /\ forall tag,
         tagToCol !! tag = if bool_decide (tag ∈ Tags (GetAllCols union))
                           then Some (nameOrEmpty sch tag) else None.
Proof.
  unfold mapTagToColName. simpl.
  destruct (mapTagToColName_iter sch (GetAllCols union) ∅) as (m & -> & Hm).
  exists m. split; [reflexivity|]. intros tag. rewrite Hm.
  destruct (bool_decide _); [reflexivity | apply lookup_empty].
Qed.

(** [mapTagToColName] keys its result by the tags of the union schema:
    a union tag maps to the name its column has in [sch], to the empty
    string when [sch] lacks the tag, and no other tag is in the map. On a
    nil schema on either side it does not return. *)
Theorem mapTagToColName_lookup (sch union : Schema V TypeInfo) :
  (exists tagToCol,
     mapTagToColName (Some sch) (Some union) = Ret tagToCol
     /\ forall tag,
          tagToCol !! tag = if bool_decide (tag ∈ Tags (GetAllCols union))
                            then Some (nameOrEmpty sch tag) else None)
  /\ mapTagToColName None (Some union) = Panic NilDereference
  /\ mapTagToColName (Some sch) None = Panic NilDereference.
Proof.
  split; [apply mapTagToColName_Some | split; reflexivity].
Qed.

End DisplayFacts.

Lemma dumbDownSchema_idempotent_witness :
  exists out : Schema string unit,
    dumbDownSchema sample.people = Ret out /\ dumbDownSchema out = Ret out.
Proof.
  destruct (dumbDownSchema sample.people) as [out | e | v] eqn:H;
    [| vm_compute in H; discriminate ..].
  exists out. split; [reflexivity|]. exact (dumbDownSchema_idempotent _ _ H).
Defined.

Lemma dumbDownSchema_names_unique_witness :
  exists out : Schema string unit,
    dumbDownSchema sample.people = Ret out /\ NoDup (map Name (GetAllCols out)).
Proof.
  destruct (dumbDownSchema sample.people) as [out | e | v] eqn:H;
    [| vm_compute in H; discriminate ..].
  exists out. split; [reflexivity|].
  apply (dumbDownSchema_names_unique sample.people out); [|exact H].
  repeat constructor; simpl; lia.
Defined.

(** *** Further properties of the pipeline set-up *)

Section PipelineFacts.
Context {V TypeInfo : Type}.
Context {NomsMap Joiner FieldMapping RowConverter DiffSplitter Source Sink FilterFn : Type}.

Variable fwtStageName : string.
Variable NullPrintingStage : string.
Variable DiffTypeProp : string.
Variable NewJoiner : option (Schema V TypeInfo) -> option (Schema V TypeInfo) -> fallible Joiner.
Variable JoinerSchema : Joiner -> Schema V TypeInfo.
Variable UntypedSchemaUnion :
  Schema V TypeInfo -> Schema V TypeInfo -> fallible (Schema V TypeInfo).
Variable TagMapping :
  Schema V TypeInfo -> option (Schema V TypeInfo) -> fallible FieldMapping.
Variable NewRowConverter : FieldMapping -> RowConverter.
Variable IdentityConverter : RowConverter.
Variable NewDiffSplitter : Joiner -> RowConverter -> RowConverter -> DiffSplitter.
Variable NewRowDiffSource : NomsMap -> NomsMap -> Joiner -> Source.
Variable NewColorDiffSink : option (Schema V TypeInfo) -> Z -> fallible Sink.
Variable NewSQLDiffSink : option (Schema V TypeInfo) -> string -> fallible Sink.
Variable ParseWhere : Schema V TypeInfo -> string -> fallible (option FilterFn).
Variable NewRowFromTaggedStrings :
  option (Schema V TypeInfo) -> gmap Z string -> fallible (gmap Z V).

Local Abbreviation unionSchema := (unionSchemaFor UntypedSchemaUnion).
Local Abbreviation splitter :=
  (createSplitter UntypedSchemaUnion TagMapping NewRowConverter IdentityConverter
                  NewDiffSplitter).
Local Abbreviation headers :=
  (headerRows fwtStageName DiffTypeProp NewRowFromTaggedStrings).
Local Abbreviation pipelineFor :=
  (buildPipeline (Source := Source) (Sink := Sink)
                 fwtStageName NullPrintingStage JoinerSchema ParseWhere).
Local Abbreviation setup :=
  (diffRowsSetup fwtStageName NullPrintingStage DiffTypeProp NewJoiner JoinerSchema
                 UntypedSchemaUnion TagMapping NewRowConverter IdentityConverter
                 NewDiffSplitter NewRowDiffSource NewColorDiffSink NewSQLDiffSink
                 ParseWhere NewRowFromTaggedStrings).

Implicit Types (fromSch toSch unionSch : option (Schema V TypeInfo)) (dArgs : diffArgs).

Lemma dumbDownSchema_not_Err (in_ : Schema V TypeInfo) (e : string) :
  dumbDownSchema in_ <> Err e.
Proof.
  unfold dumbDownSchema. rewrite dumbDown_iter. simpl.
  destruct (NewColCollection _); discriminate.
Qed.

Lemma unionSchemaFor_Err fromSch toSch dArgs (e : string) :
  unionSchema fromSch toSch dArgs = Err e ->
  exists a b e', UntypedSchemaUnion a b = Fails e'.
Proof using UntypedSchemaUnion.
  unfold unionSchemaFor. destruct (Z.eqb _ _); [|discriminate].
  intros H. apply bind_Err in H as [H | (dumbNewSch & _ & H)].
  { apply bind_Err in H as [H | (x & _ & H)];
      [now apply deref_not_Err in H | now apply dumbDownSchema_not_Err in H]. }
  apply bind_Err in H as [H | (dumbOldSch & _ & H)].
  { apply bind_Err in H as [H | (x & _ & H)];
      [now apply deref_not_Err in H | now apply dumbDownSchema_not_Err in H]. }
  apply bind_Err in H as [H | (u & _ & H)]; [|discriminate].
  apply orErr_Err in H as (e' & H & _). eauto.
Qed.

(** [createSplitter] reports an error only when the union of the
    dumbed-down schemas or one of the two tag mappings failed:
    [dumbDownSchema] never returns an error, so the two branches that
    handle one are dead. *)
Theorem createSplitter_errors fromSch toSch (joiner : Joiner) dArgs (msg : string) :
  splitter fromSch toSch joiner dArgs = Err msg ->
  (exists a b e, UntypedSchemaUnion a b = Fails e)
  \/ (exists a u e, TagMapping a u = Fails e).
Proof using UntypedSchemaUnion TagMapping NewRowConverter IdentityConverter NewDiffSplitter.
  unfold createSplitter. intros H.
  apply bind_Err in H as [H | (unionSch & _ & H)].
  { left. now apply unionSchemaFor_Err in H. }
  right. apply bind_Err in H as [H | (newConv & _ & H)].
  { destruct toSch as [toS|]; [|discriminate].
    apply bind_Err in H as [H | (x & _ & H)]; [|discriminate].
    apply orErr_Err in H as (e' & H & _). eauto. }
  apply bind_Err in H as [H | (oldConv & _ & H)]; [|discriminate].
  destruct fromSch as [fromS|]; [|discriminate].
  apply bind_Err in H as [H | (x & _ & H)]; [|discriminate].
  apply orErr_Err in H as (e' & H & _). eauto.
Qed.

Lemma buildPipeline_stages dArgs (joiner : Joiner) (ds : DiffSplitter) unionSch
    (src : Source) (sink : Sink) (p : @Pipeline V) :
  pipelineFor dArgs joiner ds unionSch src sink = Ret p ->
  injected p = [] /\ isRunning p = false
  /\ (diffOutput dArgs = TabularDiffOutput -> fwtStageName ∈ stages p).
Proof using Type.
  unfold buildPipeline. intros H.
  apply bind_Ret in H as (wh & _ & H). injection H as <-. simpl.
  split; [reflexivity|]. split; [reflexivity|].
  intros ->. simpl. rewrite !elem_of_app, !elem_of_cons. right. right. left. reflexivity.
Qed.

(** What [diffRows] has built when it reaches [p.Start()]. *)
Lemma diffRowsSetup_inv (fromRows toRows : NomsMap) fromSch toSch dArgs
    (tblName : string) (p : @Pipeline V) :
  setup fromRows toRows fromSch toSch dArgs tblName = Ret p ->
  exists unionSch oldColNames newColNames,
    unionSchema fromSch toSch dArgs = Ret unionSch
    /\ mapTagToColName fromSch unionSch = Ret oldColNames
    /\ mapTagToColName toSch unionSch = Ret newColNames
    /\ (diffOutput dArgs = TabularDiffOutput -> fwtStageName ∈ stages p)
    /\ ((diffOutput dArgs = SQLDiffOutput /\ injected p = [])
        \/ (diffOutput dArgs <> SQLDiffOutput
            /\ headers unionSch oldColNames newColNames (injected p))).
Proof.
  unfold diffRowsSetup. intros H.
  apply bind_Ret in H as (joiner & _ & H).
  apply bind_Ret in H as ([unionSch ds] & Hsplit & H).
  apply createSplitter_union in Hsplit.
  apply bind_Ret in H as (oldColNames & Hold & H).
  apply bind_Ret in H as (newColNames & Hnew & H).
  apply bind_Ret in H as (sink & _ & H).
  apply bind_Ret in H as (p0 & Hp0 & H).
  apply buildPipeline_stages in Hp0 as (Hinj0 & Hrun0 & Hfwt0).
  exists unionSch, oldColNames, newColNames.
  split; [exact Hsplit|]. split; [exact Hold|]. split; [exact Hnew|].
  destruct (Z.eqb_spec (diffOutput dArgs) SQLDiffOutput) as [Hsql | Hnsql]; simpl in H.
  - injection H as <-. split; [exact Hfwt0 | left; split; [exact Hsql | exact Hinj0]].
  - destruct (decide (oldColNames = newColNames)) as [Heq | Hne].
    + rewrite (bool_decide_eq_true_2 _ Heq) in H.
      apply bind_Ret in H as (schRow & Hrow & H). apply orErr_Ret in Hrow.
      injection H as <-. unfold InjectRow, InjectRowWithProps. simpl.
      rewrite Hinj0. simpl. split; [exact Hfwt0|]. right. split; [exact Hnsql|].
      left. split; [exact Heq|]. eauto.
    + rewrite (bool_decide_eq_false_2 _ Hne) in H.
      apply bind_Ret in H as (oldNamesRow & Hrow1 & H). apply orErr_Ret in Hrow1.
      apply bind_Ret in H as (newNamesRow & Hrow2 & H). apply orErr_Ret in Hrow2.
      injection H as <-. unfold InjectRowWithProps. simpl.
      rewrite Hinj0. simpl. split; [exact Hfwt0|]. right. split; [exact Hnsql|].
      right. split; [exact Hne|]. eauto.
Qed.

(** For the two output modes the command line can select, every row
    injected before [p.Start()] waits at a stage that the pipeline built by
    [buildPipeline] has. *)
Theorem diffRows_injects_at_existing_stage (fromRows toRows : NomsMap) fromSch toSch
    dArgs (tblName : string) (p : @Pipeline V) :
  diffOutput dArgs = TabularDiffOutput \/ diffOutput dArgs = SQLDiffOutput ->
  setup fromRows toRows fromSch toSch dArgs tblName = Ret p ->
  Forall (fun inj => atStage inj ∈ stages p) (injected p).
Proof.
  intros Hmode H.
  apply diffRowsSetup_inv in H
    as (unionSch & old & new & _ & _ & _ & Hfwt & [[_ ->] | [Hnsql Hhdr]]);
    [constructor|].
  destruct Hmode as [Htab | Hsql]; [|contradiction].
  specialize (Hfwt Htab).
  destruct Hhdr as [(_ & r & _ & ->) | (_ & r1 & r2 & _ & _ & ->)];
    repeat constructor; exact Hfwt.
Qed.

(** In tabular mode the number of header rows tells whether a column was
    renamed: one header row is injected iff every tag of the union schema
    has the same name on the old and the new side (the empty name where a
    side lacks the tag), two otherwise. *)
Theorem diffRows_one_header_iff_same_names (fromRows toRows : NomsMap) fromSch toSch
    dArgs (tblName : string) (p : @Pipeline V) :
  diffOutput dArgs = TabularDiffOutput ->
  setup fromRows toRows fromSch toSch dArgs tblName = Ret p ->
  exists fromS toS union,
    fromSch = Some fromS /\ toSch = Some toS
    /\ unionSchema fromSch toSch dArgs = Ret (Some union)
    /\ (length (injected p) = 1%nat \/ length (injected p) = 2%nat)
    /\ (length (injected p) = 1%nat <->
        forall tag, tag ∈ Tags (GetAllCols union) ->
                    nameOrEmpty fromS tag = nameOrEmpty toS tag).
Proof.
  intros Htab H.
  apply diffRowsSetup_inv in H
    as (unionSch & old & new & Hunion & Hold & Hnew & _ & Hinj).
  destruct Hinj as [[Hsql _] | [_ Hhdr]].
  { rewrite Htab in Hsql. discriminate. }
  pose proof (unionSchemaFor_tabular _ _ _ _ _ Htab Hunion)
    as (toS & fromS & dn & do' & union & -> & -> & _ & _ & _ & ->).
  exists fromS, toS, union.
  split; [reflexivity|]. split; [reflexivity|]. split; [exact Hunion|].
  destruct (mapTagToColName_Some fromS union) as (m1 & Hm1 & Hl1).
  destruct (mapTagToColName_Some toS union) as (m2 & Hm2 & Hl2).
  rewrite Hm1 in Hold. rewrite Hm2 in Hnew.
  injection Hold as <-. injection Hnew as <-.
  assert (Hnames : m1 = m2 <->
                   forall tag, tag ∈ Tags (GetAllCols union) ->
                               nameOrEmpty fromS tag = nameOrEmpty toS tag).
  { split.
    - intros Heq tag Hin. pose proof (Hl1 tag) as E1. pose proof (Hl2 tag) as E2.
      rewrite (bool_decide_eq_true_2 _ Hin) in E1, E2. rewrite Heq in E1. congruence.
    - intros Hsame. apply map_eq. intros tag. rewrite Hl1, Hl2.
      destruct (decide (tag ∈ Tags (GetAllCols union))) as [Hin | Hnin].
      + rewrite (bool_decide_eq_true_2 _ Hin). now rewrite (Hsame tag Hin).
      + now rewrite (bool_decide_eq_false_2 _ Hnin). }
  destruct Hhdr as [(Heq & r & _ & ->) | (Hne & r1 & r2 & _ & _ & ->)]; simpl.
  - split; [now left|]. split; [intros _; now apply Hnames | reflexivity].
  - split; [now right|]. split; [discriminate|].
    intros Hsame. apply Hnames in Hsame. contradiction.
Qed.

End PipelineFacts.

Lemma createSplitter_errors_witness :
  exists msg,
    createSplitter sample.UntypedSchemaUnion sample.failingTagMapping
      sample.NewRowConverter tt sample.NewDiffSplitter
      (Some sample.people) (Some sample.peopleRenamed) tt sample.sql = Err msg
    /\ ((exists a b e, sample.UntypedSchemaUnion a b = Fails e)
        \/ (exists a u e, sample.failingTagMapping a u = Fails e)).
Proof.
  destruct (createSplitter sample.UntypedSchemaUnion sample.failingTagMapping
              sample.NewRowConverter tt sample.NewDiffSplitter
              (Some sample.people) (Some sample.peopleRenamed) tt sample.sql)
    as [r | msg | v] eqn:H; [vm_compute in H; discriminate | | vm_compute in H; discriminate].
  exists msg. split; [reflexivity|]. exact (createSplitter_errors _ _ _ _ _ _ _ _ _ _ H).
Defined.

Lemma diffRows_injects_at_existing_stage_witness :
  exists p,
    sample.diffRowsSetup tt tt (Some sample.people) (Some sample.peopleRenamed)
      sample.tabular "people" = Ret p
    /\ Forall (fun inj => atStage inj ∈ stages p) (injected p).
Proof.
  destruct (sample.diffRowsSetup tt tt (Some sample.people) (Some sample.peopleRenamed)
              sample.tabular "people") as [p | e | v] eqn:H;
    [| vm_compute in H; discriminate ..].
  exists p. split; [reflexivity|]. unfold sample.diffRowsSetup in H.
  refine (diffRows_injects_at_existing_stage _ _ _ _ _ _ _ _ _ _ _ _ _ _ _
            _ _ _ _ _ _ _ _ H).
  left. reflexivity.
Defined.

Lemma diffRows_one_header_iff_same_names_witness :
  exists p fromS toS union,
    sample.diffRowsSetup tt tt (Some sample.people) (Some sample.peopleRenamed)
      sample.tabular "people" = Ret p
    /\ Some sample.people = Some fromS /\ Some sample.peopleRenamed = Some toS
    /\ unionSchemaFor sample.UntypedSchemaUnion (Some sample.people)
         (Some sample.peopleRenamed) sample.tabular = Ret (Some union)
    /\ (length (injected p) = 1%nat \/ length (injected p) = 2%nat)
    /\ (length (injected p) = 1%nat <->
        forall tag, tag ∈ Tags (GetAllCols union) ->
                    nameOrEmpty fromS tag = nameOrEmpty toS tag).
Proof.
  destruct (sample.diffRowsSetup tt tt (Some sample.people) (Some sample.peopleRenamed)
              sample.tabular "people") as [p | e | v] eqn:H;
    [| vm_compute in H; discriminate ..].
  unfold sample.diffRowsSetup in H.
  apply diffRows_one_header_iff_same_names in H as (fromS & toS & union & Hres);
    [|reflexivity].
  exists p, fromS, toS, union. split; [reflexivity | exact Hres].
Defined.

Lemma createSplitter_union_schema_witness :
  (exists unionSch ds,
     sample.createSplitter (Some sample.people) (Some sample.peopleRenamed) tt sample.tabular
       = Ret (unionSch, ds)
     /\ fromDumbedSides sample.UntypedSchemaUnion
          (Some sample.people) (Some sample.peopleRenamed) unionSch)
  /\ (exists unionSch ds,
        sample.createSplitter (Some sample.people) (Some sample.peopleRenamed) tt sample.sql
          = Ret (unionSch, ds)
        /\ unionSch = Some sample.peopleRenamed).
Proof.
  split.
  - destruct (sample.createSplitter (Some sample.people) (Some sample.peopleRenamed)
                tt sample.tabular) as [[unionSch ds] | e | v] eqn:H;
      [| vm_compute in H; discriminate ..].
    exists unionSch, ds. split; [reflexivity|]. unfold sample.createSplitter in H.
    apply createSplitter_union_schema in H as [Htab _].
    apply Htab. reflexivity.
  - destruct (sample.createSplitter (Some sample.people) (Some sample.peopleRenamed)
                tt sample.sql) as [[unionSch ds] | e | v] eqn:H;
      [| vm_compute in H; discriminate ..].
    exists unionSch, ds. split; [reflexivity|]. unfold sample.createSplitter in H.
    apply createSplitter_union_schema in H as (_ & _ & Hsql).
    apply Hsql. reflexivity.
Defined.

Lemma diffRows_header_rows_witness :
  exists p,
    sample.diffRowsSetup tt tt (Some sample.people) (Some sample.peopleRenamed)
      sample.tabular "people" = Ret p
    /\ isRunning p = false
    /\ sample.fwtStageName ∈ stages p
    /\ exists unionSch oldColNames newColNames,
         unionSchemaFor sample.UntypedSchemaUnion (Some sample.people)
           (Some sample.peopleRenamed) sample.tabular = Ret unionSch
         /\ mapTagToColName (Some sample.people) unionSch = Ret oldColNames
         /\ mapTagToColName (Some sample.peopleRenamed) unionSch = Ret newColNames
         /\ headerRows sample.fwtStageName sample.DiffTypeProp
              sample.NewRowFromTaggedStrings unionSch oldColNames newColNames (injected p)
         /\ length (injected p)
            = (if decide (oldColNames = newColNames) then 1 else 2)%nat.
Proof.
  destruct (sample.diffRowsSetup tt tt (Some sample.people) (Some sample.peopleRenamed)
              sample.tabular "people") as [p | e | v] eqn:H;
    [| vm_compute in H; discriminate ..].
  exists p. split; [reflexivity|]. unfold sample.diffRowsSetup in H.
  apply diffRows_header_rows in H as (Hrun & _ & Htab).
  split; [exact Hrun|]. apply Htab. reflexivity.
Defined.

(** One header row for equal name maps, two for a renamed column, none for
    SQL output. *)
Example diffRows_header_rows_counts :
  (length <$> (injected <$>
     sample.diffRowsSetup tt tt (Some sample.people) (Some sample.people)
       sample.tabular "people")) = Ret 1%nat
  /\ (length <$> (injected <$>
     sample.diffRowsSetup tt tt (Some sample.people) (Some sample.peopleRenamed)
       sample.tabular "people")) = Ret 2%nat
  /\ (length <$> (injected <$>
     sample.diffRowsSetup tt tt (Some sample.people) (Some sample.peopleRenamed)
       sample.sql "people")) = Ret 0%nat.
Proof. repeat split; vm_compute; reflexivity. Qed.

(** In tabular mode the added and the dropped table are skipped and only
    the modified one reaches [diffSchemas]; in SQL mode all three do. *)
Example diffRoots_calls :
  sample.diffRoots tt tt sample.tabular
    = (Ret tt, [(sample.modified,
                 mkArgs SchemaAndDataDiff TabularDiffOutput
                        (∅ ∪ list_to_set ["pets"; "people"; "cars"]) 0 EmptyString)])
  /\ (fst <$> snd (sample.diffRoots tt tt sample.sql))
     = [sample.added; sample.modified; sample.dropped].
Proof. split; vm_compute; reflexivity. Qed.

Lemma diffRoots_never_panics_on_added_dropped_witness :
  Forall (fun c : schemaCall =>
            diffOutput (snd c) = TabularDiffOutput ->
            IsAdd (fst c) = false /\ IsDrop (fst c) = false)
         (snd (sample.diffRoots tt tt sample.tabular))
  /\ fst (sample.diffRoots tt tt sample.tabular) <> Panic addedDroppedPanic.
Proof.
  unfold sample.diffRoots.
  destruct (diffRoots_never_panics_on_added_dropped
              sample.fwtStageName sample.NullPrintingStage sample.DiffTypeProp
              sample.DocTableName sample.NewJoiner sample.JoinerSchema
              sample.UntypedSchemaUnion sample.TagMapping sample.NewRowConverter tt
              sample.NewDiffSplitter sample.NewRowDiffSource sample.NewColorDiffSink
              sample.NewSQLDiffSink sample.ParseWhere sample.NewRowFromTaggedStrings
              sample.Wait sample.GetTableDeltas sample.UnionTableNames
              sample.GetSchemas sample.GetMaps sample.SchemasAreEqual sample.HashOf
              sample.SummaryRun tt tt sample.tabular) as (Hcalls & Hres & _).
  split; [exact Hcalls | exact Hres].
Defined.

(** *** Further properties of the walk over the table deltas *)

Section DeltaFacts.
Context {V TypeInfo : Type}.
Context {NomsMap Joiner FieldMapping RowConverter DiffSplitter Source Sink FilterFn : Type}.
Context {Root Table : Type}.

Variable fwtStageName : string.
Variable NullPrintingStage : string.
Variable DiffTypeProp : string.
Variable DocTableName : string.
Variable NewJoiner : option (Schema V TypeInfo) -> option (Schema V TypeInfo) -> fallible Joiner.
Variable JoinerSchema : Joiner -> Schema V TypeInfo.
Variable UntypedSchemaUnion :
  Schema V TypeInfo -> Schema V TypeInfo -> fallible (Schema V TypeInfo).
Variable TagMapping :
  Schema V TypeInfo -> option (Schema V TypeInfo) -> fallible FieldMapping.
Variable NewRowConverter : FieldMapping -> RowConverter.
Variable IdentityConverter : RowConverter.
Variable NewDiffSplitter : Joiner -> RowConverter -> RowConverter -> DiffSplitter.
Variable NewRowDiffSource : NomsMap -> NomsMap -> Joiner -> Source.
Variable NewColorDiffSink : option (Schema V TypeInfo) -> Z -> fallible Sink.
Variable NewSQLDiffSink : option (Schema V TypeInfo) -> string -> fallible Sink.
Variable ParseWhere : Schema V TypeInfo -> string -> fallible (option FilterFn).
Variable NewRowFromTaggedStrings :
  option (Schema V TypeInfo) -> gmap Z string -> fallible (gmap Z V).
Variable Wait : @Pipeline V -> option string * option string.
Variable GetSchemas :
  @TableDelta Table -> fallible (option (Schema V TypeInfo) * option (Schema V TypeInfo)).
Variable GetMaps : @TableDelta Table -> fallible (NomsMap * NomsMap).
Variable SchemasAreEqual : option (Schema V TypeInfo) -> option (Schema V TypeInfo) -> bool.
Variable HashOf : Table -> fallible string.
Variable SummaryRun : NomsMap -> NomsMap -> list summary.delivery * option string.

Local Abbreviation schemasDiff := (diffSchemas GetSchemas SchemasAreEqual).
Local Abbreviation deltaStep :=
  (diffTableDelta fwtStageName NullPrintingStage DiffTypeProp DocTableName NewJoiner
     JoinerSchema UntypedSchemaUnion TagMapping NewRowConverter IdentityConverter
     NewDiffSplitter NewRowDiffSource NewColorDiffSink NewSQLDiffSink ParseWhere
     NewRowFromTaggedStrings Wait GetSchemas GetMaps SchemasAreEqual HashOf SummaryRun).
Local Abbreviation rootsLoop :=
  (diffRootsLoop fwtStageName NullPrintingStage DiffTypeProp DocTableName NewJoiner
     JoinerSchema UntypedSchemaUnion TagMapping NewRowConverter IdentityConverter
     NewDiffSplitter NewRowDiffSource NewColorDiffSink NewSQLDiffSink ParseWhere
     NewRowFromTaggedStrings Wait GetSchemas GetMaps SchemasAreEqual HashOf SummaryRun).

Implicit Types (td : @TableDelta Table) (dArgs : diffArgs).

(** How [diffSchemas] ends: with an error exactly when the schemas cannot
    be retrieved; in its panic exactly when the schemas differ, the output
    is tabular and the table was added or dropped; with nil whenever the
    two schemas are equal. *)
Theorem diffSchemas_outcomes td dArgs :
  ((exists e, schemasDiff td dArgs = Err e) <-> (exists e, GetSchemas td = Fails e))
  /\ (forall v,
        schemasDiff td dArgs = Panic v <->
        v = addedDroppedPanic
        /\ exists fromSch toSch,
             GetSchemas td = Okay (fromSch, toSch)
             /\ SchemasAreEqual fromSch toSch = false
             /\ diffOutput dArgs = TabularDiffOutput
             /\ (IsDrop td = true \/ IsAdd td = true))
  /\ (forall fromSch toSch,
        GetSchemas td = Okay (fromSch, toSch) ->
        SchemasAreEqual fromSch toSch = true ->
        schemasDiff td dArgs = Ret tt).
Proof using Type.
  unfold diffSchemas, sqlSchemaDiff.
  destruct (GetSchemas td) as [[fromSch toSch] | e]; simpl.
  - destruct (SchemasAreEqual fromSch toSch) eqn:Heq.
    + split; [|split].
      * split; intros [e H]; discriminate.
      * intros v. split; [discriminate|].
        intros (_ & f & t & [= <- <-] & Hne & _). congruence.
      * reflexivity.
    + destruct (Z.eqb_spec (diffOutput dArgs) TabularDiffOutput) as [Htab | Hntab].
      * destruct (IsDrop td || IsAdd td) eqn:Hkind.
        -- split; [|split].
           ++ split; intros [e H]; discriminate.
           ++ intros v. split.
              ** intros [= <-]. split; [reflexivity|].
                 exists fromSch, toSch. repeat split; try assumption.
                 apply orb_true_iff in Hkind. exact Hkind.
              ** intros (-> & _). reflexivity.
           ++ intros f t [= <- <-] H. congruence.
        -- split; [|split].
           ++ split; intros [e H]; discriminate.
           ++ intros v. split; [discriminate|].
              intros (_ & f & t & _ & _ & _ & Hk).
              apply orb_true_iff in Hk. congruence.
           ++ intros f t [= <- <-] H. congruence.
      * split; [|split].
        -- split; intros [e H]; discriminate.
        -- intros v. split; [discriminate|].
           intros (_ & f & t & _ & _ & Htab & _). contradiction.
        -- intros f t [= <- <-] H. congruence.
  - split; [|split].
    + split; intros _; eauto.
    + intros v. split; [discriminate|]. intros (_ & f & t & H & _). discriminate.
    + intros f t H. discriminate.
Qed.

(** Deltas that leave no trace in [diffRoots]: a table that is not in the
    table set, and, among the selected ones with at least one side
    present, the docs table and, in tabular mode, every added or dropped
    table. The loop goes on as if the delta were not there: no schema
    diff, no row diff, the pending error unchanged. *)
Theorem diffRootsLoop_skips dArgs td (rest : list (@TableDelta Table))
    (verr : option string) :
  ((FromName td ∉ tableSet dArgs) /\ (ToName td ∉ tableSet dArgs))
  \/ (~ (FromTable td = None /\ ToTable td = None)
      /\ ((diffOutput dArgs = TabularDiffOutput /\ (IsAdd td = true \/ IsDrop td = true))
          \/ ToName td = DocTableName)) ->
  rootsLoop dArgs (td :: rest) verr = rootsLoop dArgs rest verr.
Proof using Type.
  intros Hskip.
  assert (Hstep : deltaStep dArgs td verr = Next verr []).
  { unfold diffTableDelta.
    destruct (bool_decide_reflect (FromName td ∈ tableSet dArgs)) as [Hf | Hf];
      destruct (bool_decide_reflect (ToName td ∈ tableSet dArgs)) as [Ht | Ht];
      simpl; try (destruct Hskip as [[? ?] | Hskip]; [contradiction|]).
    4: reflexivity.
    all: destruct Hskip as [Hsides Hkind].
    all: destruct (bool_decide_reflect (FromTable td = None)) as [Hfn | Hfn];
      destruct (bool_decide_reflect (ToTable td = None)) as [Htn | Htn];
      simpl; try (exfalso; apply Hsides; split; assumption).
    all: unfold printTableDiffSummary, IsAdd, IsDrop in *.
    all: destruct (Z.eqb_spec (diffOutput dArgs) TabularDiffOutput) as [Htab | Hntab];
      simpl.
    all: destruct (String.eqb_spec (ToName td) DocTableName) as [Hdoc | Hndoc]; simpl.
    all: try rewrite (bool_decide_eq_true_2 _ Hfn).
    all: try rewrite (bool_decide_eq_true_2 _ Htn).
    all: try rewrite (bool_decide_eq_false_2 _ Hfn).
    all: try rewrite (bool_decide_eq_false_2 _ Htn).
    all: simpl; try reflexivity.
    all: try rewrite Hfn; try rewrite Htn; try reflexivity.
    all: try (destruct (ToTable td); [reflexivity | congruence]).
    all: try (destruct (FromTable td), (ToTable td); try congruence; reflexivity).
    all: exfalso;
      destruct Hkind as [[Hm [Hk | Hk]] | Hk]; try contradiction;
      try (rewrite bool_decide_eq_true in Hk; contradiction). }
  cbn [diffRootsLoop]. rewrite Hstep.
  destruct (rootsLoop dArgs rest verr) as [r later]. reflexivity.
Qed.

End DeltaFacts.

Lemma diffRootsLoop_skips_witness :
  diffRootsLoop sample.fwtStageName sample.NullPrintingStage sample.DiffTypeProp
    sample.DocTableName sample.NewJoiner sample.JoinerSchema sample.UntypedSchemaUnion
    sample.TagMapping sample.NewRowConverter tt sample.NewDiffSplitter
    sample.NewRowDiffSource sample.NewColorDiffSink sample.NewSQLDiffSink
    sample.ParseWhere sample.NewRowFromTaggedStrings sample.Wait sample.GetSchemas
    sample.GetMaps sample.SchemasAreEqual sample.HashOf sample.SummaryRun
    (mkArgs SchemaAndDataDiff TabularDiffOutput {[ "pets"; "people" ]} 0 EmptyString)
    [sample.added; sample.modified] None
  = diffRootsLoop sample.fwtStageName sample.NullPrintingStage sample.DiffTypeProp
    sample.DocTableName sample.NewJoiner sample.JoinerSchema sample.UntypedSchemaUnion
    sample.TagMapping sample.NewRowConverter tt sample.NewDiffSplitter
    sample.NewRowDiffSource sample.NewColorDiffSink sample.NewSQLDiffSink
    sample.ParseWhere sample.NewRowFromTaggedStrings sample.Wait sample.GetSchemas
    sample.GetMaps sample.SchemasAreEqual sample.HashOf sample.SummaryRun
    (mkArgs SchemaAndDataDiff TabularDiffOutput {[ "pets"; "people" ]} 0 EmptyString)
    [sample.modified] None.
Proof.
  apply diffRootsLoop_skips. right. split.
  - intros [_ H]. discriminate.
  - left. split; [reflexivity | left; reflexivity].
Defined.

(** *** Command-line arguments *)

Section ArgsFacts.
Context {Root Table CommitSpec Commit : Type}.

Variable CWBHeadRef : string.
Variable NewCommitSpec : string -> string -> fallible CommitSpec.
Variable Resolve : CommitSpec -> fallible Commit.
Variable GetRootValue : Commit -> fallible Root.
Variable HeadRoot : option Root * option string.
Variable WorkingRoot : option Root * option string.
Variable GetTable : Root -> string -> fallible (option Table).

Local Abbreviation resolve := (maybeResolve CWBHeadRef NewCommitSpec Resolve GetRootValue).
Local Abbreviation roots :=
  (getRoots CWBHeadRef NewCommitSpec Resolve GetRootValue HeadRoot WorkingRoot).
Local Abbreviation verify := (verifyTables GetTable).
Local Abbreviation parse :=
  (parseDiffArgs CWBHeadRef NewCommitSpec Resolve GetRootValue HeadRoot WorkingRoot
                 GetTable).

(** [getRoots] fails exactly when the working root cannot be read, and
    then with that error; an error of [HeadRoot] is never reported.
    Otherwise at most the first two arguments are taken as commits, each
    only if it resolves, and the arguments left over are exactly the rest,
    in order: the first argument that does not resolve and all after it
    are table names. *)
Theorem getRoots_splits_args (args : list string) :
  (forall e, snd WorkingRoot = Some e -> roots args = Err e)
  /\ (snd WorkingRoot = None ->
      exists from to leftover,
        roots args = Ret (from, to, leftover)
        /\ ((leftover = args /\ from = fst HeadRoot /\ to = fst WorkingRoot
             /\ forall arg0, head args = Some arg0 -> resolve arg0 = None)
            \/ (exists arg0,
                  args = arg0 :: leftover /\ is_Some from /\ from = resolve arg0
                  /\ to = fst WorkingRoot
                  /\ forall arg1, head leftover = Some arg1 -> resolve arg1 = None)
            \/ (exists arg0 arg1,
                  args = arg0 :: arg1 :: leftover
                  /\ is_Some from /\ from = resolve arg0
                  /\ is_Some to /\ to = resolve arg1))).
Proof using Type.
  unfold getRoots. destruct HeadRoot as [headRoot headErr].
  destruct WorkingRoot as [workingRoot [e|]]; simpl.
  - split; [intros e' [= <-]; reflexivity | discriminate].
  - split; [discriminate|]. intros _.
    destruct args as [| arg0 afterFirst].
    { do 3 eexists. split; [reflexivity|]. left. repeat split. discriminate. }
    destruct (resolve arg0) as [from|] eqn:H0.
    2: { do 3 eexists. split; [reflexivity|]. left. repeat split.
         intros a [= <-]. exact H0. }
    destruct afterFirst as [| arg1 afterSecond].
    { do 3 eexists. split; [reflexivity|]. right. left. exists arg0.
      repeat split; [eauto | now rewrite H0 | discriminate]. }
    destruct (resolve arg1) as [to|] eqn:H1.
    + do 3 eexists. split; [reflexivity|]. right. right. exists arg0, arg1.
      repeat split; [eauto | now rewrite H0 | eauto | now rewrite H1].
    + do 3 eexists. split; [reflexivity|]. right. left. exists arg0.
      repeat split; [eauto | now rewrite H0 |]. intros a [= <-]. exact H1.
Qed.

Lemma verifyTables_Ret (from to : option Root) (leftover : list string) :
  verify from to leftover = Ret tt ->
  forall tbl, tbl ∈ leftover -> inSomeRoot GetTable from to tbl.
Proof using Type.
  induction leftover as [| t rest IH]; intros H tbl Hin; [inversion Hin|].
  cbn [verifyTables] in H.
  apply bind_Ret in H as (from' & Hfrom & H). apply deref_Ret in Hfrom.
  destruct (GetTable from' t) as [[tab|] | e] eqn:Hget; [| | discriminate].
  - apply elem_of_cons in Hin as [-> | Hin]; [|now apply IH].
    left. exists from', tab. split; assumption.
  - apply bind_Ret in H as (to' & Hto & H). apply deref_Ret in Hto.
    destruct (GetTable to' t) as [[tab|] | e] eqn:Hget'; [| discriminate..].
    apply elem_of_cons in Hin as [-> | Hin]; [|now apply IH].
    right. exists to', tab. split; assumption.
Qed.

Lemma parseDiffArgs_inv (apr : ArgParseResults) (from to : option Root) (dArgs : diffArgs) :
  parse apr = Ret (from, to, dArgs) ->
  (Contains apr SummaryFlag && (Contains apr SchemaFlag || Contains apr DataFlag)) = false
  /\ exists leftover,
       roots (Args apr) = Ret (from, to, leftover)
       /\ verify from to leftover = Ret tt
       /\ dArgs = mkArgs
            (if Contains apr SummaryFlag then Summary
             else if Contains apr DataFlag && negb (Contains apr SchemaFlag)
                  then DataOnlyDiff
                  else if Contains apr SchemaFlag && negb (Contains apr DataFlag)
                       then SchemaOnlyDiff else SchemaAndDataDiff)
            (if Contains apr SQLFlag then SQLDiffOutput else TabularDiffOutput)
            (list_to_set leftover)
            (fst (GetInt apr limitParam))
            (GetValueOrDefault apr whereParam EmptyString).
Proof using Type.
  unfold parseDiffArgs.
  destruct (Contains apr SummaryFlag && (Contains apr SchemaFlag || Contains apr DataFlag));
    [discriminate|].
  intros H. split; [reflexivity|].
  apply bind_Ret in H as ([[from' to'] leftover] & Hroots & H).
  apply bind_Ret in H as ([] & Hverify & H).
  injection H as <- <- <-. exists leftover. repeat split; assumption.
Qed.

(** What the command line can select: the output mode is tabular, or SQL
    exactly with [--sql]; the parts are the summary exactly with
    [--summary], which excludes [--schema] and [--data], and else schema
    only, data only or both, both also when [--schema] and [--data] are
    given together. *)
Theorem parseDiffArgs_modes (apr : ArgParseResults) (from to : option Root)
    (dArgs : diffArgs) :
  parse apr = Ret (from, to, dArgs) ->
  (diffOutput dArgs = TabularDiffOutput \/ diffOutput dArgs = SQLDiffOutput)
  /\ (diffOutput dArgs = SQLDiffOutput <-> Contains apr SQLFlag = true)
  /\ diffParts dArgs ∈ [SchemaOnlyDiff; DataOnlyDiff; SchemaAndDataDiff; Summary]
  /\ (diffParts dArgs = Summary <-> Contains apr SummaryFlag = true)
  /\ (Contains apr SummaryFlag = true ->
      Contains apr SchemaFlag = false /\ Contains apr DataFlag = false)
  /\ (Contains apr SummaryFlag = false ->
      Contains apr SchemaFlag = Contains apr DataFlag ->
      diffParts dArgs = SchemaAndDataDiff).
Proof using Type.
  intros H. apply parseDiffArgs_inv in H as (Hexcl & leftover & _ & _ & ->). simpl.
  destruct (Contains apr SQLFlag), (Contains apr SummaryFlag),
    (Contains apr SchemaFlag), (Contains apr DataFlag);
    simpl in *; try discriminate;
    repeat split; try tauto; try discriminate; try reflexivity;
    rewrite ?elem_of_cons; auto.
Qed.

(** Every table name that [parseDiffArgs] puts in the table set exists
    in at least one of the two roots it returns. *)
Theorem parseDiffArgs_tables_exist (apr : ArgParseResults) (from to : option Root)
    (dArgs : diffArgs) :
  parse apr = Ret (from, to, dArgs) ->
  forall tbl, tbl ∈ tableSet dArgs -> inSomeRoot GetTable from to tbl.
Proof using Type.
  intros H tbl Hin. apply parseDiffArgs_inv in H as (_ & leftover & _ & Hverify & ->).
  simpl in Hin. apply elem_of_list_to_set in Hin.
  now apply (verifyTables_Ret from to leftover).
Qed.

End ArgsFacts.

Lemma parseDiffArgs_modes_witness :
  exists from to dArgs,
    sample.parseDiffArgs sample.sqlOfPeople = Ret (from, to, dArgs)
    /\ diffOutput dArgs = SQLDiffOutput
    /\ diffParts dArgs = SchemaAndDataDiff.
Proof.
  destruct (sample.parseDiffArgs sample.sqlOfPeople) as [[[from to] dArgs] | e | v] eqn:H;
    [| vm_compute in H; discriminate ..].
  exists from, to, dArgs. split; [reflexivity|]. unfold sample.parseDiffArgs in H.
  apply parseDiffArgs_modes in H as (_ & Hsql & _ & _ & _ & Hboth).
  split; [apply Hsql; reflexivity | apply Hboth; reflexivity].
Defined.

Lemma parseDiffArgs_tables_exist_witness :
  exists from to dArgs,
    sample.parseDiffArgs sample.sqlOfPeople = Ret (from, to, dArgs)
    /\ forall tbl, tbl ∈ tableSet dArgs -> inSomeRoot sample.GetTable from to tbl.
Proof.
  destruct (sample.parseDiffArgs sample.sqlOfPeople) as [[[from to] dArgs] | e | v] eqn:H;
    [| vm_compute in H; discriminate ..].
  exists from, to, dArgs. split; [reflexivity|]. unfold sample.parseDiffArgs in H.
  exact (parseDiffArgs_tables_exist _ _ _ _ _ _ _ _ _ _ _ H).
Defined.

(** *** Printing the lines of a document diff *)

Lemma printDiffLines_cons (line : string) (rest : list string) :
  line <> EmptyString ->
  exists written,
    printDiffLines (line :: rest)
      = (written :: fst (printDiffLines rest), snd (printDiffLines rest))
    /\ sourceLine written = line.
Proof.
  intros Hne. destruct line as [| first afterFirst]; [contradiction|].
  cbn [printDiffLines]. destruct (printDiffLines rest) as [more panicked].
  destruct (String.eqb_spec (String first EmptyString) "+") as [Hplus | Hnplus].
  - eexists. split; [reflexivity|]. injection Hplus as ->. reflexivity.
  - destruct (String.eqb_spec (String first EmptyString) "-") as [Hminus | Hnminus].
    + eexists. split; [reflexivity|]. injection Hminus as ->. reflexivity.
    + eexists. split; reflexivity.
Qed.

(** [printDiffLines] writes one line per line of the diff, in order, and
    each written line gives its line back once the blank after the marker
    is taken out; it stops at the first empty line, in the
    index-out-of-range panic of [line[0]], having written the lines before
    it. So it returns normally exactly when no line is empty. *)
Theorem printDiffLines_round_trip (lines : list string) :
  (snd (printDiffLines lines) = true <-> EmptyString ∈ lines)
  /\ (exists unread,
        lines = map sourceLine (fst (printDiffLines lines)) ++ unread
        /\ (EmptyString ∉ map sourceLine (fst (printDiffLines lines)))
        /\ (if snd (printDiffLines lines)
            then head unread = Some EmptyString else unread = []))
  /\ (EmptyString ∉ lines -> map sourceLine (fst (printDiffLines lines)) = lines).
Proof.
  assert (Hmain : (snd (printDiffLines lines) = true <-> EmptyString ∈ lines)
                  /\ exists unread,
                       lines = map sourceLine (fst (printDiffLines lines)) ++ unread
                       /\ (EmptyString ∉ map sourceLine (fst (printDiffLines lines)))
                       /\ (if snd (printDiffLines lines)
                           then head unread = Some EmptyString else unread = [])).
  { induction lines as [| line rest [IHp (unread & IHl & IHn & IHu)]].
    - simpl. split; [split; [discriminate | intros H; inversion H]|].
      exists []. repeat split. apply not_elem_of_nil.
    - destruct (String.eqb_spec line EmptyString) as [-> | Hne].
      + simpl. split; [split; [intros _; left | reflexivity]|].
        exists (EmptyString :: rest). repeat split. apply not_elem_of_nil.
      + destruct (printDiffLines_cons line rest Hne) as (written & -> & Hsrc).
        cbn [fst snd map]. rewrite Hsrc. split.
        * rewrite IHp, elem_of_cons. split; [tauto|].
          intros [H | H]; [congruence | exact H].
        * exists unread. split; [simpl; now rewrite <- IHl|]. split; [|exact IHu].
          rewrite elem_of_cons. intros [H | H]; [congruence | contradiction]. }
  destruct Hmain as [Hp Hl]. split; [exact Hp|]. split; [exact Hl|].
  intros Hnone. destruct Hl as (unread & Hl & _ & Hu).
  destruct (snd (printDiffLines lines)) eqn:Hs.
  - exfalso. apply Hnone. now apply Hp.
  - subst unread. now rewrite app_nil_r in Hl.
Qed.

Example printDiffLines_example :
  printDiffLines ["+added"; "-gone"; " same"]
    = ([(Green, "+ added"); (Red, "- gone"); (Plain, "  same")], false)
  /\ printDiffLines ["+added"; EmptyString; "-gone"] = ([(Green, "+ added")], true).
Proof. split; reflexivity. Qed.

End CommandsFacts.
